(** * Class-name prefixing scripts: update_editor_classes.py, update_viewer_classes.py

    Both scripts read one JSX file as UTF-8 text, run an ordered list of
    [re.sub] calls over the whole text and write the text back.  This file
    embeds the scripts (the rule tables, the loop, the file accesses) together
    with the part of Python's runtime they call: the UTF-8 codec, the newline
    handling of text-mode files and the fragment of [re] the rule tables use. *)

From Stdlib Require Import Ascii String List Bool Arith NArith Lia.
Import ListNotations.

Local Open Scope N_scope.
Local Open Scope list_scope.

(** ** Text

    A Python [str] is a sequence of Unicode code points. *)

Definition char := N.
Definition text := list char.

(** An ASCII literal of the source, as code points. *)
Definition str (s : string) : text := map N_of_ascii (list_ascii_of_string s).

(** The source literals contain the double quote (code point 34).  [py] reads
    an apostrophe (39) as that double quote, so that a rule is written here
    as it is in the script, with ' standing for the double quote. *)
Definition py (s : string) : text :=
  map (fun c => if c =? 39 then 34 else c) (str s).

Fixpoint text_eqb (a b : text) : bool :=
  match a, b with
  | [], [] => true
  | x :: a', y :: b' => (x =? y) && text_eqb a' b'
  | _, _ => false
  end.

(** [p] is a prefix of [s]. *)
Fixpoint is_prefix (p s : text) : bool :=
  match p, s with
  | [], _ => true
  | x :: p', y :: s' => (x =? y) && is_prefix p' s'
  | _ :: _, [] => false
  end.

(** [p] occurs in [s] as a substring. *)
Fixpoint occurs (p s : text) : bool :=
  is_prefix p s || match s with [] => false | _ :: s' => occurs p s' end.

(** ** The fragment of Python's [re] module that the scripts rely on

    [re.sub(pattern, repl, string)] compiles [pattern], expands the escapes
    of [repl] and replaces the leftmost non-overlapping matches.  The model
    covers literal characters, the dot, escaped special characters, the
    greedy quantifiers on one character and alternation.  [None] stands for
    [re.error] and for syntax outside that fragment (groups, classes,
    anchors, counted repeats, group references). *)

Module Re.

Inductive atom : Type :=
| AChr (c : char)        (* one literal character *)
| ADot.                  (* any character but the newline *)

Inductive quant : Type := QOne | QOpt | QStar | QPlus.

Definition item : Type := atom * quant.

(** A branch is a sequence of items, a pattern a list of branches tried in
    order. *)
Definition branch : Type := list item.
Definition regex : Type := list branch.

(** The special characters of the pattern syntax:
    . ^ $ * + ? { } [ ] \ | ( ) *)
Definition special (c : char) : bool :=
  existsb (N.eqb c) [46; 94; 36; 42; 43; 63; 123; 125; 91; 93; 92; 124; 40; 41].

Definition is_quant (c : char) : bool := existsb (N.eqb c) [42; 43; 63].

Definition parse_atom (s : text) : option (atom * text) :=
  match s with
  | [] => None
  | c :: s' =>
      if c =? 92 then
        match s' with
        | d :: s'' => if special d then Some (AChr d, s'') else None
        | [] => None
        end
      else if c =? 46 then Some (ADot, s')
      else if special c then None
      else Some (AChr c, s')
  end.

Definition parse_quant (s : text) : option (quant * text) :=
  match s with
  | c :: s' =>
      if is_quant c then
        match s' with
        | d :: _ => if is_quant d then None
                    else Some (if c =? 42 then QStar else if c =? 43 then QPlus else QOpt, s')
        | [] => Some (if c =? 42 then QStar else if c =? 43 then QPlus else QOpt, s')
        end
      else Some (QOne, s)
  | [] => Some (QOne, s)
  end.

Fixpoint parse (fuel : nat) (s : text) : option regex :=
  match fuel with
  | O => None
  | S fuel' =>
      match s with
      | [] => Some [[]]
      | c :: s' =>
          if c =? 124 then option_map (cons []) (parse fuel' s')
          else
            match parse_atom s with
            | None => None
            | Some (a, s1) =>
                match parse_quant s1 with
                | None => None
                | Some (q, s2) =>
                    match parse fuel' s2 with
                    | Some (b :: bs) => Some (((a, q) :: b) :: bs)
                    | _ => None
                    end
                end
            end
      end
  end.

Definition compile (pattern : text) : option regex :=
  parse (S (length pattern)) pattern.

Definition atom_ok (a : atom) (c : char) : bool :=
  match a with
  | AChr x => x =? c
  | ADot => negb (c =? 10)
  end.

(** Backtracking match of a branch at the head of [s]; [k] receives the
    text left after the branch and decides whether the match stands. *)
Fixpoint match_items (b : branch) (k : text -> option text) (s : text)
  : option text :=
  match b with
  | [] => k s
  | (a, q) :: b' =>
      let next := match_items b' k in
      let one (cont : text -> option text) (s : text) :=
        match s with
        | c :: s' => if atom_ok a c then cont s' else None
        | [] => None
        end in
      let star :=
        fix star (s : text) : option text :=
          match s with
          | c :: s' =>
              if atom_ok a c then
                match star s' with
                | Some r => Some r
                | None => next s
                end
              else next s
          | [] => next s
          end in
      match q with
      | QOne => one next s
      | QOpt => match one next s with Some r => Some r | None => next s end
      | QStar => star s
      | QPlus => one star s
      end
  end.

Fixpoint match_alts (r : regex) (k : text -> option text) (s : text)
  : option text :=
  match r with
  | [] => None
  | b :: r' =>
      match match_items b k s with
      | Some rest => Some rest
      | None => match_alts r' k s
      end
  end.

(** One match attempt at the head of [s]; the result is the text after the
    match.  With [must_advance] an empty match is refused (the state the
    engine is in right after an empty match at the same position). *)
Definition match_at (r : regex) (must_advance : bool) (s : text)
  : option text :=
  match_alts r
    (fun rest =>
       if must_advance && (length rest =? length s)%nat then None
       else Some rest) s.

(** The substitution loop: [skip] characters of the current match are still
    to be dropped. *)
Fixpoint sub_loop (r : regex) (repl : text) (skip : nat) (s : text) : text :=
  match s with
  | [] => match match_at r false [] with Some _ => repl | None => [] end
  | c :: s' =>
      match skip with
      | S n => sub_loop r repl n s'
      | O =>
          match match_at r false s with
          | None => c :: sub_loop r repl 0 s'
          | Some rest =>
              match (length s - length rest)%nat with
              | S m => repl ++ sub_loop r repl m s'
              | O =>
                  repl ++
                  match match_at r true s with
                  | Some rest' =>
                      repl ++ sub_loop r repl (length s' - length rest') s'
                  | None => c :: sub_loop r repl 0 s'
                  end
              end
          end
      end
  end.

(** The escapes of a replacement string. *)
Definition unescape (d : char) : option text :=
  if d =? 92 then Some [92]
  else if d =? 110 then Some [10]
  else if d =? 116 then Some [9]
  else if d =? 114 then Some [13]
  else if d =? 97 then Some [7]
  else if d =? 98 then Some [8]
  else if d =? 102 then Some [12]
  else if d =? 118 then Some [11]
  else if ((48 <=? d) && (d <=? 57)) || ((65 <=? d) && (d <=? 90))
          || ((97 <=? d) && (d <=? 122)) then None
  else Some [92; d].

Fixpoint expand (repl : text) : option text :=
  match repl with
  | [] => Some []
  | c :: t =>
      if c =? 92 then
        match t with
        | d :: t' =>
            match unescape d, expand t' with
            | Some out, Some rest => Some (out ++ rest)
            | _, _ => None
            end
        | [] => None
        end
      else option_map (cons c) (expand t)
  end.

(** The number of substitutions the loop makes, the second component of
    what [re.subn] returns. *)
Fixpoint count_loop (r : regex) (skip : nat) (s : text) : nat :=
  match s with
  | [] => match match_at r false [] with Some _ => 1 | None => 0 end
  | c :: s' =>
      match skip with
      | S n => count_loop r n s'
      | O =>
          match match_at r false s with
          | None => count_loop r 0 s'
          | Some rest =>
              match (length s - length rest)%nat with
              | S m => S (count_loop r m s')
              | O =>
                  S match match_at r true s with
                    | Some rest' => S (count_loop r (length s' - length rest') s')
                    | None => count_loop r 0 s'
                    end
              end
          end
      end
  end.

(** [re.sub(pattern, repl, string)] *)
Definition sub (pattern repl string : text) : option text :=
  match compile pattern with
  | None => None
  | Some r =>
      match expand repl with
      | None => None
      | Some t => Some (sub_loop r t 0 string)
      end
  end.

(** [re.subn(pattern, repl, string)[1]] *)
Definition subn_count (pattern repl string : text) : option nat :=
  match compile pattern with
  | None => None
  | Some r =>
      match expand repl with
      | None => None
      | Some _ => Some (count_loop r 0 string)
      end
  end.

End Re.

(** ** The rule tables *)

Definition rule : Type := text * text.

(** update_editor_classes.py, [replacements] *)
Definition editor_replacements : list rule :=
  [ (py "className='timetable-grid'", py "className='editor-timetable-grid'");
    (py "className='subject-code'", py "className='editor-subject-code'") ].

(** update_viewer_classes.py, [replacements] *)
Definition viewer_replacements : list rule :=
  [ (py "className='empty-cell'", py "className='viewer-empty-cell'");
    (py "className='break-cell'", py "className='viewer-break-cell'");
    (py "className='lab-cell'", py "className='viewer-lab-cell'");
    (py "className='subject-code'", py "className='viewer-subject-code'");
    (py "className='teacher-name'", py "className='viewer-teacher-name'");
    (py "className='cell-content'", py "className='viewer-cell-content'");
    (py "className='cell-content-compact'", py "className='viewer-cell-content-compact'");
    (py "className='day-label'", py "className='viewer-day-label'");
    (py "className='time-header'", py "className='viewer-time-header'");
    (py "className='day-header'", py "className='viewer-day-header'");
    (py "className='fixed-badge'", py "className='viewer-fixed-badge'");
    (py "className='classroom-badge", py "className='viewer-classroom-badge");
    (py "className='break-icon'", py "className='viewer-break-icon'");
    (py "className='break-label'", py "className='viewer-break-label'");
    (py "className='time-range'", py "className='viewer-time-range'");
    (py "className='lab-content-horizontal'", py "className='viewer-lab-content-horizontal'");
    (py "className='batch-compact'", py "className='viewer-batch-compact'");
    (py "className='batch-name-compact'", py "className='viewer-batch-name-compact'");
    (py "className='batch-lab-compact'", py "className='viewer-batch-lab-compact'");
    (py "className='batch-room-compact'", py "className='viewer-batch-room-compact'");
    (py "className='batch-teacher-compact'", py "className='viewer-batch-teacher-compact'");
    (py "className='timetable-grid'", py "className='viewer-timetable-grid'") ].

(** The loop of both scripts:
    [for pattern, replacement in replacements:
         content = re.sub(pattern, replacement, content)]
    [None]: a [re.sub] call raised. *)
Fixpoint apply_replacements (replacements : list rule) (content : text)
  : option text :=
  match replacements with
  | [] => Some content
  | (pattern, replacement) :: rest =>
      match Re.sub pattern replacement content with
      | Some content' => apply_replacements rest content'
      | None => None
      end
  end.

(** ** Text files

    [open(path, mode, encoding='utf-8')] gives a text-mode file: the bytes
    are decoded as UTF-8 with the strict error handler and, [newline] being
    left at its default, line endings are translated in both directions. *)

Module Utf8.

Definition byte := N.

Definition cont (b : byte) : bool := (128 <=? b) && (b <=? 191).

(** Strict decoding: overlong forms, surrogates and values above
    U+10FFFF are refused. *)
Fixpoint decode (bs : list byte) : option text :=
  match bs with
  | [] => Some []
  | b0 :: r0 =>
      if b0 <? 128 then option_map (cons b0) (decode r0)
      else if (194 <=? b0) && (b0 <=? 223) then
        match r0 with
        | b1 :: r1 =>
            if cont b1
            then option_map (cons ((b0 - 192) * 64 + (b1 - 128))) (decode r1)
            else None
        | _ => None
        end
      else if (224 <=? b0) && (b0 <=? 239) then
        match r0 with
        | b1 :: b2 :: r2 =>
            if cont b1 && cont b2
               && (if b0 =? 224 then 160 <=? b1 else true)
               && (if b0 =? 237 then b1 <=? 159 else true)
            then option_map
                   (cons ((b0 - 224) * 4096 + (b1 - 128) * 64 + (b2 - 128)))
                   (decode r2)
            else None
        | _ => None
        end
      else if (240 <=? b0) && (b0 <=? 244) then
        match r0 with
        | b1 :: b2 :: b3 :: r3 =>
            if cont b1 && cont b2 && cont b3
               && (if b0 =? 240 then 144 <=? b1 else true)
               && (if b0 =? 244 then b1 <=? 143 else true)
            then option_map
                   (cons ((b0 - 240) * 262144 + (b1 - 128) * 4096
                          + (b2 - 128) * 64 + (b3 - 128)))
                   (decode r3)
            else None
        | _ => None
        end
      else None
  end.

Definition encode_char (c : char) : option (list byte) :=
  if c <? 128 then Some [c]
  else if c <? 2048 then Some [192 + c / 64; 128 + c mod 64]
  else if c <? 65536 then
    if (55296 <=? c) && (c <=? 57343) then None
    else Some [224 + c / 4096; 128 + (c / 64) mod 64; 128 + c mod 64]
  else if c <? 1114112 then
    Some [240 + c / 262144; 128 + (c / 4096) mod 64;
          128 + (c / 64) mod 64; 128 + c mod 64]
  else None.

Fixpoint encode (t : text) : option (list byte) :=
  match t with
  | [] => Some []
  | c :: t' =>
      match encode_char c, encode t' with
      | Some bs, Some rest => Some (bs ++ rest)
      | _, _ => None
      end
  end.

End Utf8.

Inductive platform : Type := Posix | Windows.

(** [os.linesep] *)
Definition linesep (os : platform) : text :=
  match os with
  | Posix => [10]
  | Windows => [13; 10]
  end.

(** Reading with [newline=None]: CR LF, and a CR alone, are read as LF. *)
Fixpoint read_newlines (t : text) : text :=
  match t with
  | [] => []
  | c :: t' =>
      if c =? 13 then
        10 :: match t' with
              | d :: t'' => if d =? 10 then read_newlines t'' else read_newlines t'
              | [] => []
              end
      else c :: read_newlines t'
  end.

(** Writing with [newline=None]: every LF is written as [os.linesep]. *)
Definition write_newlines (os : platform) (t : text) : text :=
  flat_map (fun c => if c =? 10 then linesep os else [c]) t.

(** ** The process environment: one file system, one standard output *)

Record file : Type := mkFile {
  readable : bool;
  writable : bool;
  data : list Utf8.byte
}.

Definition path := string.

Definition filesystem := path -> option file.

Definition store (fs : filesystem) (p : path) (f : file) : filesystem :=
  fun q => if String.eqb q p then Some f else fs q.

Record world : Type := mkWorld {
  os : platform;
  fs : filesystem;
  stdout : list text
}.

Inductive exn : Type :=
| FileNotFoundError
| PermissionError
| UnicodeDecodeError
| UnicodeEncodeError
| ReError.

Inductive outcome (A : Type) : Type :=
| Return (a : A)
| Raise (e : exn).
Arguments Return {A} a.
Arguments Raise {A} e.

(** Statements run in a state monad over [world] with exceptions; nothing in
    the scripts catches an exception, so a [Raise] ends the run. *)
Definition M (A : Type) : Type := world -> world * outcome A.

Definition ret {A} (a : A) : M A := fun w => (w, Return a).

Definition raise {A} (e : exn) : M A := fun w => (w, Raise e).

Definition bind {A B} (m : M A) (f : A -> M B) : M B :=
  fun w =>
    match m w with
    | (w', Return a) => f a w'
    | (w', Raise e) => (w', Raise e)
    end.

Notation "x <- m ;; k" := (bind m (fun x => k))
  (at level 61, m at next level, right associativity).
Notation "m ;;; k" := (bind m (fun _ => k))
  (at level 61, right associativity).

(** [with open(p, 'r', encoding='utf-8') as f: content = f.read()] *)
Definition read_text (p : path) : M text :=
  fun w =>
    match fs w p with
    | None => (w, Raise FileNotFoundError)
    | Some f =>
        if readable f then
          match Utf8.decode (data f) with
          | Some t => (w, Return (read_newlines t))
          | None => (w, Raise UnicodeDecodeError)
          end
        else (w, Raise PermissionError)
    end.

(** [with open(p, 'w', encoding='utf-8') as f: f.write(content)]
    Opening truncates the file (or creates it); [write] encodes the whole
    string before any byte reaches the file. *)
Definition write_text (p : path) (content : text) : M unit :=
  fun w =>
    let opened :=
      match fs w p with
      | None => Some (mkFile true true [])
      | Some f => if writable f then Some (mkFile (readable f) true []) else None
      end in
    match opened with
    | None => (w, Raise PermissionError)
    | Some f0 =>
        match Utf8.encode (write_newlines (os w) content) with
        | Some bs =>
            (mkWorld (os w) (store (fs w) p (mkFile (readable f0) true bs)) (stdout w),
             Return tt)
        | None =>
            (mkWorld (os w) (store (fs w) p f0) (stdout w), Raise UnicodeEncodeError)
        end
    end.

(** [print(line)]; standard output is taken to accept every line. *)
Definition print (line : text) : M unit :=
  fun w => (mkWorld (os w) (fs w) (stdout w ++ [line]), Return tt).

(** The replacement loop as a statement: a failing [re.sub] raises. *)
Definition run_replacements (replacements : list rule) (content : text) : M text :=
  match apply_replacements replacements content with
  | Some content' => ret content'
  | None => raise ReError
  end.

(** The body shared by the two scripts. *)
Definition script (target : path) (replacements : list rule) (message : text)
  : M unit :=
  content <- read_text target ;;
  content <- run_replacements replacements content ;;
  write_text target content ;;;
  print message.

Definition editor_path : path := "src/components/TimetableEditor.jsx"%string.
Definition viewer_path : path := "src/components/TimetableViewer.jsx"%string.

(** The printed line starts with U+2705. *)
Definition editor_message : text :=
  9989 :: str " Successfully updated TimetableEditor.jsx with editor- prefixes".
Definition viewer_message : text :=
  9989 :: str " Successfully updated TimetableViewer.jsx with viewer- prefixes".

(** update_editor_classes.py *)
Definition update_editor_classes : M unit :=
  script editor_path editor_replacements editor_message.

(** update_viewer_classes.py *)
Definition update_viewer_classes : M unit :=
  script viewer_path viewer_replacements viewer_message.

(** The number of substitutions the loop of a script makes in all. *)
Fixpoint count_replacements (replacements : list rule) (content : text)
  : option nat :=
  match replacements with
  | [] => Some O
  | (pattern, replacement) :: rest =>
      match Re.subn_count pattern replacement content,
            Re.sub pattern replacement content with
      | Some n, Some content' =>
          option_map (Nat.add n) (count_replacements rest content')
      | _, _ => None
      end
  end.

(** ** Plain substitution of substrings

    What the specification describes: every non-overlapping occurrence of a
    literal pattern, found from the left, is replaced ([str.replace]). *)

Fixpoint replace_from (p r : text) (skip : nat) (s : text) : text :=
  match s with
  | [] => if is_prefix p [] then r else []
  | c :: s' =>
      match skip with
      | S n => replace_from p r n s'
      | O =>
          if is_prefix p s then
            r ++ match length p with
                 | S m => replace_from p r m s'
                 | O => c :: replace_from p r 0 s'
                 end
          else c :: replace_from p r 0 s'
      end
  end.

Definition replace_all (p r s : text) : text := replace_from p r 0 s.

Fixpoint count_from (p : text) (skip : nat) (s : text) : nat :=
  match s with
  | [] => if is_prefix p [] then 1 else 0
  | c :: s' =>
      match skip with
      | S n => count_from p n s'
      | O =>
          if is_prefix p s then
            S match length p with
              | S m => count_from p m s'
              | O => count_from p 0 s'
              end
          else count_from p 0 s'
      end
  end.

Definition count_all (p s : text) : nat := count_from p 0 s.

(** The rules one after the other, each on the result of the one before. *)
Definition sequential (rs : list rule) (s : text) : text :=
  fold_left (fun acc rl => replace_all (fst rl) (snd rl) acc) rs s.

Fixpoint sequential_count (rs : list rule) (s : text) : nat :=
  match rs with
  | [] => O
  | (p, r) :: rs' => (count_all p s + sequential_count rs' (replace_all p r s))%nat
  end.

(** The rules all at once, in one pass over the original text: at each
    position the first rule of the list whose pattern is found there is
    applied. *)
Definition first_match (rs : list rule) (s : text) : option rule :=
  find (fun rl => is_prefix (fst rl) s) rs.

Fixpoint simultaneous_from (rs : list rule) (skip : nat) (s : text) : text :=
  match s with
  | [] => match first_match rs [] with Some (_, r) => r | None => [] end
  | c :: s' =>
      match skip with
      | S n => simultaneous_from rs n s'
      | O =>
          match first_match rs s with
          | Some (p, r) =>
              r ++ match length p with
                   | S m => simultaneous_from rs m s'
                   | O => c :: simultaneous_from rs 0 s'
                   end
          | None => c :: simultaneous_from rs 0 s'
          end
      end
  end.

Definition simultaneous (rs : list rule) (s : text) : text :=
  simultaneous_from rs 0 s.

(** [p] is found at no position of [pre ++ p ++ rest] before [length pre]:
    the occurrence after [pre] is the leftmost one. *)
Definition leftmost (p pre rest : text) : Prop :=
  forall u v, pre = u ++ v -> v <> [] -> is_prefix p (v ++ p ++ rest) = false.

(** Global substitution as a relation: the occurrences are taken from the
    left, none overlapping the one before, and the text between them is
    kept. *)
Inductive GlobalSubst (p r : text) : text -> text -> Prop :=
| GS_none : forall s, occurs p s = false -> GlobalSubst p r s s
| GS_hit : forall pre rest out,
    leftmost p pre rest ->
    GlobalSubst p r rest out ->
    GlobalSubst p r (pre ++ p ++ rest) (pre ++ r ++ out).

Inductive Chain : list rule -> text -> text -> Prop :=
| Chain_nil : forall s, Chain [] s s
| Chain_cons : forall p r rs s s1 s2,
    GlobalSubst p r s s1 -> Chain rs s1 s2 -> Chain ((p, r) :: rs) s s2.

(** [Inserted k ins n s out]: [out] is [s] with [n] copies of [ins] put in,
    each right after an occurrence of [k] in [s], everything else kept in
    order. *)
Inductive Inserted (k ins : text) : nat -> text -> text -> Prop :=
| Ins_done : forall s, Inserted k ins 0 s s
| Ins_more : forall g n s out,
    Inserted k ins n s out ->
    Inserted k ins (S n) (g ++ k ++ s) (g ++ k ++ ins ++ out).

(** ** Patterns that cannot meet a block of text

    [compat a b]: one of [a], [b] is a prefix of the other, so that [a] is
    found at the head of [b ++ y] for some [y]. *)
Definition compat (a b : text) : bool := is_prefix a b || is_prefix b a.

(** No occurrence of [q] in any [x ++ b ++ y] starts inside [b]. *)
Definition starts_free (q b : text) : bool :=
  forallb (fun k => negb (compat q (skipn k b))) (seq 0 (length b)).

(** No occurrence of [q] in any [x ++ b ++ y] starts in [x] and reaches
    into or beyond [b]. *)
Definition enters_free (q b : text) : bool :=
  forallb (fun j => negb (compat (skipn j q) b)) (seq 1 (length q - 1)).

Definition touch_free (q b : text) : bool := starts_free q b && enters_free q b.

Definition nonempty (p : text) : bool :=
  match p with [] => false | _ :: _ => true end.

(** Every pattern is non-empty and no pattern can share a character with,
    or span, a replacement. *)
Definition no_overlap (rs : list rule) : bool :=
  forallb (fun q => nonempty q && forallb (touch_free q) (map snd rs))
          (map fst rs).

(** A rule whose pattern has no special character and whose replacement has
    no backslash. *)
Definition literal_rule (rl : rule) : bool :=
  forallb (fun c => negb (Re.special c)) (fst rl)
  && forallb (fun c => negb (c =? 92)) (snd rl).

Definition literal_rules (rs : list rule) : bool := forallb literal_rule rs.

(** The effect of one rule on a block [b] whatever surrounds it: untouched,
    or rewritten once at its head. *)
Definition block_step (rl : rule) (b : text) : option (text * nat) :=
  let (p, r) := rl in
  if negb (nonempty p) then None
  else if touch_free p b then Some (b, O)
  else if is_prefix p b && enters_free p b
          && starts_free p (skipn (length p) b)
       then Some (r ++ skipn (length p) b, 1%nat)
  else None.

Fixpoint block_run (rs : list rule) (b : text) : option (text * nat) :=
  match rs with
  | [] => Some (b, O)
  | rl :: rs' =>
      match block_step rl b with
      | None => None
      | Some (b1, n1) =>
          match block_run rs' b1 with
          | None => None
          | Some (b2, n2) => Some (b2, (n1 + n2)%nat)
          end
      end
  end.

(** The rules of a list all put [ins] right after the leading [k] of their
    pattern, and each pattern, as a block, is rewritten by its own rule
    only. *)
Definition prefixing (k ins : text) (rs : list rule) : bool :=
  forallb (fun rl =>
             is_prefix k (fst rl)
             && text_eqb (snd rl) (k ++ ins ++ skipn (length k) (fst rl))
             && match block_run rs (fst rl) with
                | Some (b, n) => text_eqb b (snd rl) && (n =? 1)%nat
                | None => false
                end) rs.

(** ** Line endings that survive a read and a write on a platform *)

Fixpoint crlf_only (t : text) : bool :=
  match t with
  | [] => true
  | c :: t' =>
      if c =? 13 then
        match t' with
        | d :: t'' => (d =? 10) && crlf_only t''
        | [] => false
        end
      else negb (c =? 10) && crlf_only t'
  end.

Definition native_newlines (os : platform) (t : text) : bool :=
  match os with
  | Posix => forallb (fun c => negb (c =? 13)) t
  | Windows => crlf_only t
  end.




(** The two scripts, for statements about either of them. *)
Inductive script_id : Type := Editor | Viewer.

Definition target (s : script_id) : path :=
  match s with Editor => editor_path | Viewer => viewer_path end.

Definition replacements (s : script_id) : list rule :=
  match s with Editor => editor_replacements | Viewer => viewer_replacements end.

Definition message (s : script_id) : text :=
  match s with Editor => editor_message | Viewer => viewer_message end.

Definition main (s : script_id) : M unit :=
  match s with Editor => update_editor_classes | Viewer => update_viewer_classes end.

(** The text every rule of a script puts after [className=] and the quote. *)
Definition added (s : script_id) : text :=
  match s with Editor => str "editor-" | Viewer => str "viewer-" end.

Definition attribute : text := py "className='".

(** No pattern of the list occurs in a replacement of the list. *)
Definition pattern_free_replacements (rs : list rule) : bool :=
  forallb (fun q => forallb (fun r => negb (occurs q r)) (map snd rs))
          (map fst rs).

(** Some replacement of the list contains the pattern of a later rule. *)
Fixpoint feeds_later (rs : list rule) : bool :=
  match rs with
  | [] => false
  | (_, r) :: rs' => existsb (fun rl => occurs (fst rl) r) rs' || feeds_later rs'
  end.

(** Small rule lists and worlds on which statements are tried. *)

(** ab -> a : the pattern is not in the replacement, yet a replacement can
    complete a new occurrence. *)
Definition junction_rules : list rule := [ (str "ab", str "a") ].

(** a -> b, then b -> b : the second rule finds what the first wrote and
    writes it back. *)
Definition relay_rules : list rule := [ (str "a", str "b"); (str "b", str "b") ].

Definition one_file (o : platform) (p : path) (f : file) : world :=
  mkWorld o (fun q => if String.eqb q p then Some f else None) [].

(** The editor's file holding the four bytes a CR LF b, on a POSIX system. *)
Definition crlf_world : world :=
  one_file Posix editor_path (mkFile true true [97; 13; 10; 98]).


(** The editor's file holding one tag, as UTF-8. *)
Definition sample_world : world :=
  one_file Posix editor_path
    (mkFile true true (py "<td class='x'>") ).

(** The code points a [str] read from a file can hold: the Unicode scalar
    values, the ones UTF-8 encodes. *)
Definition scalar (c : char) : bool :=
  (c <? 55296) || ((57343 <? c) && (c <? 1114112)).






(** ** Notions used in the proofs *)

(** No occurrence of [p] in [x ++ z] starts in [x] and ends beyond it. *)
Definition no_cross (p x z : text) : Prop :=
  forall u v, x = u ++ v -> v <> [] ->
              is_prefix p (v ++ z) = true -> is_prefix p v = true.

(** No occurrence of [p] in [b ++ z] starts in [b]. *)
Definition no_start (p b z : text) : Prop :=
  forall u v, b = u ++ v -> v <> [] -> is_prefix p (v ++ z) = false.

(** The compiled form of a pattern made of literal characters only. *)
Definition lit (p : text) : Re.regex :=
  [map (fun c => (Re.AChr c, Re.QOne)) p].

(** * Properties *)

Ltac bools :=
  repeat match goal with
    | H : (_ && _) = true |- _ => apply andb_prop in H; destruct H
    | H : (_ <=? _) = true |- _ => apply N.leb_le in H
    | H : (_ <=? _) = false |- _ => apply N.leb_gt in H
    | H : (_ <? _) = true |- _ => apply N.ltb_lt in H
    | H : (_ <? _) = false |- _ => apply N.ltb_ge in H
    | H : (_ =? _) = true |- _ => apply N.eqb_eq in H
    | H : (_ =? _) = false |- _ => apply N.eqb_neq in H
    | H : Utf8.cont _ = true |- _ => unfold Utf8.cont in H
    end.


(** ** Prefixes and occurrences *)

Section Prefix.

Lemma is_prefix_app (p s : text) : is_prefix p (p ++ s) = true.
Proof.
  induction p as [|x p IH]; simpl; [reflexivity|].
  now rewrite N.eqb_refl, IH.
Qed.

Lemma is_prefix_inv (p s : text) :
  is_prefix p s = true -> s = p ++ skipn (length p) s.
Proof.
  revert s; induction p as [|x p IH]; intros [|y s] H; simpl in *;
    try reflexivity; try discriminate.
  apply andb_prop in H as [Hxy Hp].
  apply N.eqb_eq in Hxy; subst y.
  f_equal; now apply IH.
Qed.

Lemma is_prefix_length (p s : text) :
  is_prefix p s = true -> (length p <= length s)%nat.
Proof.
  intros H. apply is_prefix_inv in H.
  rewrite H, length_app. lia.
Qed.

Lemma is_prefix_extend (p s z : text) :
  is_prefix p s = true -> is_prefix p (s ++ z) = true.
Proof.
  revert s; induction p as [|x p IH]; intros [|y s] H; simpl in *;
    try reflexivity; try discriminate.
  apply andb_prop in H as [Hxy Hp].
  now rewrite Hxy, IH.
Qed.

(** A pattern found at the head of [u ++ v] lies in [u] or runs over its
    end. *)
Lemma is_prefix_split (p u v : text) :
  is_prefix p (u ++ v) = true ->
  is_prefix p u = true \/
  exists w, w <> [] /\ p = u ++ w /\ is_prefix w v = true.
Proof.
  revert p; induction u as [|c u IH]; intros [|x p] H; simpl in *;
    try (left; reflexivity).
  - right. exists (x :: p). repeat split; [discriminate | exact H].
  - apply andb_prop in H as [Hxc Hp].
    apply N.eqb_eq in Hxc; subst x.
    destruct (IH _ Hp) as [Hin | (w & Hw & Heq & Hpre)].
    + left. now rewrite N.eqb_refl.
    + right. exists w. subst p. now repeat split.
Qed.

Lemma compat_of_prefix (p v y : text) :
  is_prefix p (v ++ y) = true -> compat p v = true.
Proof.
  intros H. unfold compat.
  destruct (is_prefix_split _ _ _ H) as [Hin | (w & _ & Heq & _)].
  - now rewrite Hin.
  - subst p. rewrite is_prefix_app. apply orb_true_r.
Qed.

Lemma occurs_cons (p : text) (c : char) (s : text) :
  occurs p (c :: s) = is_prefix p (c :: s) || occurs p s.
Proof. reflexivity. Qed.

Lemma occurs_app_l (p x y : text) :
  occurs p x = true -> occurs p (x ++ y) = true.
Proof.
  induction x as [|c x IH]; intros H.
  - simpl in H. rewrite orb_false_r in H.
    destruct p; [|discriminate]. now destruct y.
  - rewrite occurs_cons in H. simpl app. rewrite occurs_cons.
    apply orb_true_iff in H as [H | H].
    + change (c :: x ++ y) with ((c :: x) ++ y).
      now rewrite (is_prefix_extend _ _ _ H).
    + rewrite (IH H). apply orb_true_r.
Qed.

Lemma occurs_app_r (p x y : text) :
  occurs p y = true -> occurs p (x ++ y) = true.
Proof.
  induction x as [|c x IH]; intros H; [exact H|].
  simpl app. rewrite occurs_cons, (IH H). apply orb_true_r.
Qed.

Lemma occurs_head (p s : text) : is_prefix p s = true -> occurs p s = true.
Proof. intros H. destruct s; simpl; now rewrite H. Qed.

Lemma occurs_at (p x y : text) : occurs p (x ++ p ++ y) = true.
Proof. apply occurs_app_r, occurs_head, is_prefix_app. Qed.

Lemma occurs_nil (s : text) : occurs [] s = true.
Proof. now destruct s. Qed.

End Prefix.

(** ** Plain substitution: the scan *)

Lemma no_cross_tail (p : text) (c : char) (x z : text) :
  no_cross p (c :: x) z -> no_cross p x z.
Proof. intros H u v -> Hv. apply (H (c :: u) v); [reflexivity | exact Hv]. Qed.

Lemma no_start_tail (p : text) (c : char) (b z : text) :
  no_start p (c :: b) z -> no_start p b z.
Proof. intros H u v -> Hv. apply (H (c :: u) v); [reflexivity | exact Hv]. Qed.

Lemma nonempty_length (p : text) :
  nonempty p = true -> exists m, length p = S m.
Proof. destruct p; [discriminate | intros _; eexists; reflexivity]. Qed.

Lemma nonempty_not_prefix_nil (p : text) :
  nonempty p = true -> is_prefix p [] = false.
Proof. now destruct p. Qed.

Lemma replace_cons_hit (p r : text) (c : char) (s : text) :
  is_prefix p (c :: s) = true ->
  replace_from p r 0 (c :: s) =
  r ++ match length p with
       | S m => replace_from p r m s
       | O => c :: replace_from p r 0 s
       end.
Proof. intros H. cbn [replace_from]. now rewrite H. Qed.

Lemma replace_cons_miss (p r : text) (c : char) (s : text) :
  is_prefix p (c :: s) = false ->
  replace_from p r 0 (c :: s) = c :: replace_from p r 0 s.
Proof. intros H. cbn [replace_from]. now rewrite H. Qed.

Lemma count_cons_hit (p : text) (c : char) (s : text) :
  is_prefix p (c :: s) = true ->
  count_from p 0 (c :: s) =
  S match length p with
    | S m => count_from p m s
    | O => count_from p 0 s
    end.
Proof. intros H. cbn [count_from]. now rewrite H. Qed.

Lemma count_cons_miss (p : text) (c : char) (s : text) :
  is_prefix p (c :: s) = false ->
  count_from p 0 (c :: s) = count_from p 0 s.
Proof. intros H. cbn [count_from]. now rewrite H. Qed.

Lemma replace_skip (p r u s : text) :
  replace_from p r (length u) (u ++ s) = replace_from p r 0 s.
Proof. induction u as [|c u IH]; [reflexivity | exact IH]. Qed.

Lemma count_skip (p u s : text) :
  count_from p (length u) (u ++ s) = count_from p 0 s.
Proof. induction u as [|c u IH]; [reflexivity | exact IH]. Qed.

(** At an occurrence the replacement is emitted and the scan resumes after
    the pattern. *)
Lemma replace_hit (p r s : text) :
  nonempty p = true ->
  replace_all p r (p ++ s) = r ++ replace_all p r s.
Proof.
  intros Hp. unfold replace_all.
  pose proof (is_prefix_app p s) as Hpre.
  destruct p as [|c p']; [discriminate|].
  change ((c :: p') ++ s) with (c :: (p' ++ s)) in *.
  rewrite (replace_cons_hit _ _ _ _ Hpre). cbn [length].
  now rewrite replace_skip.
Qed.

Lemma count_hit (p s : text) :
  nonempty p = true ->
  count_all p (p ++ s) = S (count_all p s).
Proof.
  intros Hp. unfold count_all.
  pose proof (is_prefix_app p s) as Hpre.
  destruct p as [|c p']; [discriminate|].
  change ((c :: p') ++ s) with (c :: (p' ++ s)) in *.
  rewrite (count_cons_hit _ _ _ Hpre). cbn [length].
  now rewrite count_skip.
Qed.

(** Where the pattern does not occur nothing changes. *)
Lemma replace_absent (p r s : text) :
  occurs p s = false -> replace_all p r s = s.
Proof.
  unfold replace_all. induction s as [|c s IH]; intros H.
  - simpl in *. rewrite orb_false_r in H. now rewrite H.
  - rewrite occurs_cons in H. apply orb_false_iff in H as [H1 H2].
    rewrite replace_cons_miss by exact H1. now rewrite IH.
Qed.

Lemma count_absent (p s : text) :
  occurs p s = false -> count_all p s = O.
Proof.
  unfold count_all. induction s as [|c s IH]; intros H.
  - simpl in *. rewrite orb_false_r in H. now rewrite H.
  - rewrite occurs_cons in H. apply orb_false_iff in H as [H1 H2].
    rewrite count_cons_miss by exact H1. now rewrite IH.
Qed.

(** The scan of [x ++ z] is the scan of [x] followed by the scan of [z] when
    no occurrence runs over the end of [x]. *)
Lemma replace_split (p r : text) (x z : text) :
  nonempty p = true -> no_cross p x z ->
  forall k, (k <= length x)%nat ->
  replace_from p r k (x ++ z) = replace_from p r k x ++ replace_from p r 0 z.
Proof.
  intros Hp. induction x as [|c x IH]; intros Hx k Hk.
  - simpl in Hk. assert (k = O) by lia. subst k. cbn [app replace_from].
    now rewrite (nonempty_not_prefix_nil _ Hp).
  - pose proof (no_cross_tail _ _ _ _ Hx) as Hx'.
    destruct k as [|k].
    + destruct (is_prefix p ((c :: x) ++ z)) eqn:E.
      * assert (is_prefix p (c :: x) = true) as E'
            by (apply (Hx [] (c :: x)); [reflexivity | discriminate | exact E]).
        change ((c :: x) ++ z) with (c :: (x ++ z)) in *.
        rewrite (replace_cons_hit _ _ _ _ E), (replace_cons_hit _ _ _ _ E').
        destruct (nonempty_length _ Hp) as [m Hm]. rewrite Hm.
        apply is_prefix_length in E'. simpl in E'.
        rewrite IH by (assumption || lia). now rewrite app_assoc.
      * assert (is_prefix p (c :: x) = false) as E'.
        { destruct (is_prefix p (c :: x)) eqn:E1; [|reflexivity].
          now rewrite (is_prefix_extend _ _ z E1) in E. }
        change ((c :: x) ++ z) with (c :: (x ++ z)) in *.
        rewrite (replace_cons_miss _ _ _ _ E), (replace_cons_miss _ _ _ _ E').
        rewrite IH by (assumption || lia). reflexivity.
    + simpl in Hk. cbn [app replace_from]. apply IH; [assumption | lia].
Qed.

Lemma count_split (p : text) (x z : text) :
  nonempty p = true -> no_cross p x z ->
  forall k, (k <= length x)%nat ->
  count_from p k (x ++ z) = (count_from p k x + count_from p 0 z)%nat.
Proof.
  intros Hp. induction x as [|c x IH]; intros Hx k Hk.
  - simpl in Hk. assert (k = O) by lia. subst k. cbn [app count_from].
    now rewrite (nonempty_not_prefix_nil _ Hp).
  - pose proof (no_cross_tail _ _ _ _ Hx) as Hx'.
    destruct k as [|k].
    + destruct (is_prefix p ((c :: x) ++ z)) eqn:E.
      * assert (is_prefix p (c :: x) = true) as E'
            by (apply (Hx [] (c :: x)); [reflexivity | discriminate | exact E]).
        change ((c :: x) ++ z) with (c :: (x ++ z)) in *.
        rewrite (count_cons_hit _ _ _ E), (count_cons_hit _ _ _ E').
        destruct (nonempty_length _ Hp) as [m Hm]. rewrite Hm.
        apply is_prefix_length in E'. simpl in E'.
        rewrite IH by (assumption || lia). reflexivity.
      * assert (is_prefix p (c :: x) = false) as E'.
        { destruct (is_prefix p (c :: x)) eqn:E1; [|reflexivity].
          now rewrite (is_prefix_extend _ _ z E1) in E. }
        change ((c :: x) ++ z) with (c :: (x ++ z)) in *.
        rewrite (count_cons_miss _ _ _ E), (count_cons_miss _ _ _ E').
        apply IH; [assumption | lia].
    + simpl in Hk. cbn [app count_from]. apply IH; [assumption | lia].
Qed.

(** A stretch in which no occurrence starts is copied. *)
Lemma replace_gap (p r b z : text) :
  no_start p b z ->
  replace_all p r (b ++ z) = b ++ replace_all p r z.
Proof.
  unfold replace_all. induction b as [|c b IH]; intros Hb; [reflexivity|].
  assert (is_prefix p ((c :: b) ++ z) = false) as E
      by (apply (Hb [] (c :: b)); [reflexivity | discriminate]).
  change ((c :: b) ++ z) with (c :: (b ++ z)) in *.
  rewrite (replace_cons_miss _ _ _ _ E).
  now rewrite (IH (no_start_tail _ _ _ _ Hb)).
Qed.

Lemma count_gap (p b z : text) :
  no_start p b z -> count_all p (b ++ z) = count_all p z.
Proof.
  unfold count_all. induction b as [|c b IH]; intros Hb; [reflexivity|].
  assert (is_prefix p ((c :: b) ++ z) = false) as E
      by (apply (Hb [] (c :: b)); [reflexivity | discriminate]).
  change ((c :: b) ++ z) with (c :: (b ++ z)) in *.
  rewrite (count_cons_miss _ _ _ E).
  now rewrite (IH (no_start_tail _ _ _ _ Hb)).
Qed.

(** ** What the checks on a pattern and a block guarantee *)

Lemma skipn_app_exact {A} (u v : list A) : skipn (length u) (u ++ v) = v.
Proof. induction u; [reflexivity | assumption]. Qed.

Lemma starts_free_sound (q b : text) :
  starts_free q b = true -> forall y, no_start q b y.
Proof.
  intros H y u v -> Hv.
  destruct (is_prefix q (v ++ y)) eqn:E; [|reflexivity].
  apply compat_of_prefix in E.
  unfold starts_free in H. rewrite forallb_forall in H.
  specialize (H (length u)).
  rewrite skipn_app_exact, E in H.
  assert (In (length u) (seq 0 (length (u ++ v)))) as Hin.
  { apply in_seq. rewrite length_app. destruct v; [contradiction|]. simpl. lia. }
  now specialize (H Hin).
Qed.

Lemma enters_free_sound (q b : text) :
  enters_free q b = true -> forall x y, no_cross q x (b ++ y).
Proof.
  intros H x y u v -> Hv E.
  destruct (is_prefix_split _ _ _ E) as [Hin | (w & Hw & Heq & Hpre)];
    [exact Hin|].
  apply compat_of_prefix in Hpre.
  unfold enters_free in H. rewrite forallb_forall in H.
  specialize (H (length v)). subst q.
  rewrite skipn_app_exact, Hpre in H.
  assert (In (length v) (seq 1 (length (v ++ w) - 1))) as Hin.
  { apply in_seq. rewrite length_app.
    destruct v; [contradiction|]. destruct w; [contradiction|]. simpl. lia. }
  now specialize (H Hin).
Qed.

(** An occurrence of [q] in [x ++ b ++ y] lies in [x] or in [y] when [q]
    cannot meet [b]. *)
Lemma occurs_around (q b x y : text) :
  touch_free q b = true ->
  occurs q (x ++ b ++ y) = true -> occurs q x = true \/ occurs q y = true.
Proof.
  intros H. apply andb_prop in H as [Hs He].
  pose proof (starts_free_sound _ _ Hs y) as Hstart.
  pose proof (enters_free_sound _ _ He x y) as Hcross.
  clear Hs He. induction x as [|c x IH].
  - intros Ho. right. simpl app in Ho. clear Hcross.
    induction b as [|d b IHb]; [exact Ho|].
    simpl app in Ho. rewrite occurs_cons in Ho.
    assert (is_prefix q ((d :: b) ++ y) = false) as E
        by (apply (Hstart [] (d :: b)); [reflexivity | discriminate]).
    simpl app in E. rewrite E in Ho.
    apply IHb; [now apply no_start_tail in Hstart | exact Ho].
  - intros Ho. simpl app in Ho. rewrite occurs_cons in Ho.
    apply orb_true_iff in Ho as [Ho | Ho].
    + left. apply occurs_head.
      apply (Hcross [] (c :: x)); [reflexivity | discriminate | exact Ho].
    + destruct (IH (no_cross_tail _ _ _ _ Hcross) Ho) as [Hx | Hy].
      * left. rewrite occurs_cons, Hx. apply orb_true_r.
      * now right.
Qed.

(** What [touch_free] checks, in terms of positions: an occurrence of [q]
    in [x ++ b ++ y] ends before [b] begins or starts after [b] ends. *)
Lemma touch_free_meaning (q b : text) :
  touch_free q b = true ->
  forall x y k,
    is_prefix q (skipn k (x ++ b ++ y)) = true ->
    (k + length q <= length x)%nat \/ (length x + length b <= k)%nat.
Proof.
  intros H x y k Hk. apply andb_prop in H as [Hs He].
  destruct (Nat.lt_ge_cases k (length x)) as [Hlt | Hge].
  - left. rewrite skipn_app in Hk.
    replace (k - length x)%nat with O in Hk by lia. cbn [skipn] in Hk.
    assert (skipn k x <> []) as Hv.
    { intros E. apply (f_equal (@length char)) in E.
      rewrite length_skipn in E. simpl in E. lia. }
    pose proof (enters_free_sound _ _ He x y (firstn k x) (skipn k x)
                  (eq_sym (firstn_skipn k x)) Hv Hk) as Hin.
    apply is_prefix_length in Hin. rewrite length_skipn in Hin. lia.
  - destruct (Nat.lt_ge_cases k (length x + length b)) as [Hlt | Hge'];
      [exfalso | now right].
    rewrite skipn_app, (skipn_all2 x Hge) in Hk. cbn [app] in Hk.
    rewrite skipn_app in Hk.
    replace (k - length x - length b)%nat with O in Hk by lia.
    cbn [skipn] in Hk.
    assert (skipn (k - length x) b <> []) as Hv.
    { intros E. apply (f_equal (@length char)) in E.
      rewrite length_skipn in E. simpl in E. lia. }
    pose proof (starts_free_sound _ _ Hs y (firstn (k - length x) b)
                  (skipn (k - length x) b)
                  (eq_sym (firstn_skipn (k - length x) b)) Hv) as Hno.
    congruence.
Qed.

(** The leftmost occurrence. *)
Lemma leftmost_exists (p s : text) :
  occurs p s = true ->
  exists pre rest, s = pre ++ p ++ rest /\ leftmost p pre rest.
Proof.
  induction s as [|c s IH]; intros H.
  - simpl in H. rewrite orb_false_r in H.
    exists [], []. split; [now destruct p|].
    intros u v Huv Hv. now destruct u, v.
  - destruct (is_prefix p (c :: s)) eqn:E.
    + exists [], (skipn (length p) (c :: s)). split.
      * now apply is_prefix_inv.
      * intros u v Huv Hv. now destruct u, v.
    + rewrite occurs_cons, E in H. simpl in H.
      destruct (IH H) as (pre & rest & Heq & Hl).
      exists (c :: pre), rest. split; [now rewrite Heq|].
      intros u v Huv Hv. destruct u as [|d u].
      * simpl in Huv. subst v. simpl app. now rewrite <- Heq.
      * injection Huv as -> ->. now apply (Hl u v).
Qed.

Lemma replace_leftmost (p r pre rest : text) :
  nonempty p = true -> leftmost p pre rest ->
  replace_all p r (pre ++ p ++ rest) = pre ++ r ++ replace_all p r rest.
Proof.
  intros Hp Hl. rewrite (replace_gap p r pre (p ++ rest) Hl).
  now rewrite replace_hit.
Qed.

Lemma count_leftmost (p pre rest : text) :
  nonempty p = true -> leftmost p pre rest ->
  count_all p (pre ++ p ++ rest) = S (count_all p rest).
Proof.
  intros Hp Hl. rewrite (count_gap p pre (p ++ rest) Hl).
  now rewrite count_hit.
Qed.

Lemma leftmost_absent (p pre rest : text) :
  nonempty p = true -> leftmost p pre rest -> occurs p pre = false.
Proof.
  intros Hp. induction pre as [|c pre IH]; intros Hl.
  - simpl. now rewrite (nonempty_not_prefix_nil _ Hp).
  - rewrite occurs_cons, (IH (no_start_tail _ _ _ _ Hl)), orb_false_r.
    destruct (is_prefix p (c :: pre)) eqn:E; [|reflexivity].
    rewrite <- (Hl [] (c :: pre) eq_refl) by discriminate.
    symmetry. now apply is_prefix_extend.
Qed.

(** ** One rule on a block *)

Lemma block_step_sound (rl : rule) (b b' : text) (c : nat) :
  block_step rl b = Some (b', c) ->
  forall x y,
    replace_all (fst rl) (snd rl) (x ++ b ++ y)
    = replace_all (fst rl) (snd rl) x ++ b' ++ replace_all (fst rl) (snd rl) y
    /\ count_all (fst rl) (x ++ b ++ y)
       = (count_all (fst rl) x + c + count_all (fst rl) y)%nat.
Proof.
  destruct rl as [p r]. unfold block_step. cbn [fst snd].
  destruct (nonempty p) eqn:Hp; [|discriminate]. cbn [negb].
  destruct (touch_free p b) eqn:Ht.
  - intros [= <- <-] x y.
    apply andb_prop in Ht as [Hs He].
    pose proof (starts_free_sound _ _ Hs y) as Hstart.
    pose proof (enters_free_sound _ _ He x y) as Hcross.
    unfold replace_all, count_all.
    rewrite (replace_split p r x (b ++ y) Hp Hcross 0) by lia.
    rewrite (count_split p x (b ++ y) Hp Hcross 0) by lia.
    fold (replace_all p r (b ++ y)) (count_all p (b ++ y)).
    rewrite (replace_gap p r b y Hstart), (count_gap p b y Hstart).
    split; [reflexivity | unfold count_all; lia].
  - destruct (is_prefix p b && enters_free p b
              && starts_free p (skipn (length p) b)) eqn:Hh; [|discriminate].
    intros [= <- <-] x y.
    apply andb_prop in Hh as [Hh Hs]. apply andb_prop in Hh as [Hpre He].
    pose proof (starts_free_sound _ _ Hs y) as Hstart.
    pose proof (enters_free_sound _ _ He x y) as Hcross.
    apply is_prefix_inv in Hpre.
    set (t := skipn (length p) b) in *.
    unfold replace_all, count_all.
    rewrite (replace_split p r x (b ++ y) Hp Hcross 0) by lia.
    rewrite (count_split p x (b ++ y) Hp Hcross 0) by lia.
    fold (replace_all p r (b ++ y)) (count_all p (b ++ y)).
    rewrite Hpre, <- !app_assoc.
    rewrite (replace_hit p r (t ++ y) Hp), (count_hit p (t ++ y) Hp).
    rewrite (replace_gap p r t y Hstart), (count_gap p t y Hstart).
    split; [reflexivity | unfold count_all; lia].
Qed.

Lemma sequential_cons (rl : rule) (rs : list rule) (s : text) :
  sequential (rl :: rs) s = sequential rs (replace_all (fst rl) (snd rl) s).
Proof. reflexivity. Qed.

Lemma block_run_sound (rs : list rule) :
  forall b b' c,
    block_run rs b = Some (b', c) ->
    forall x y,
      sequential rs (x ++ b ++ y) = sequential rs x ++ b' ++ sequential rs y
      /\ sequential_count rs (x ++ b ++ y)
         = (sequential_count rs x + c + sequential_count rs y)%nat.
Proof.
  induction rs as [|rl rs IH]; intros b b' c H x y.
  - injection H as <- <-. split; [reflexivity | simpl; lia].
  - cbn [block_run] in H.
    destruct (block_step rl b) as [[b1 n1]|] eqn:E1; [|discriminate].
    destruct (block_run rs b1) as [[b2 n2]|] eqn:E2; [|discriminate].
    injection H as <- <-.
    destruct (block_step_sound _ _ _ _ E1 x y) as [Hr Hc].
    rewrite !sequential_cons, Hr.
    destruct (IH _ _ _ E2 (replace_all (fst rl) (snd rl) x)
                 (replace_all (fst rl) (snd rl) y)) as [Hr' Hc'].
    split; [exact Hr'|].
    destruct rl as [p r]. cbn [sequential_count fst snd] in *.
    rewrite Hr, Hc', Hc. lia.
Qed.

(** ** Patterns that stay absent *)

Lemma occurs_false_app (q x y : text) :
  occurs q (x ++ y) = false -> occurs q x = false /\ occurs q y = false.
Proof.
  intros H. split.
  - destruct (occurs q x) eqn:E; [|reflexivity].
    now rewrite (occurs_app_l _ _ y E) in H.
  - destruct (occurs q y) eqn:E; [|reflexivity].
    now rewrite (occurs_app_r _ x _ E) in H.
Qed.

(** After rule [(p, r)] a pattern [q] that cannot meet [r] is absent if it
    was absent before, or if it is [p] itself. *)
Lemma absent_after_rule (q p r : text) :
  nonempty p = true -> touch_free q r = true ->
  forall n s, (length s <= n)%nat ->
    occurs q s = false \/ q = p ->
    occurs q (replace_all p r s) = false.
Proof.
  intros Hp Ht. induction n as [|n IH]; intros s Hn Hq.
  - destruct s; [|simpl in Hn; lia].
    rewrite replace_absent.
    + destruct Hq as [Hq | ->]; [exact Hq|].
      simpl. now rewrite (nonempty_not_prefix_nil _ Hp).
    + simpl. now rewrite (nonempty_not_prefix_nil _ Hp).
  - destruct (occurs p s) eqn:Ho.
    + destruct (leftmost_exists _ _ Ho) as (pre & rest & -> & Hl).
      rewrite (replace_leftmost _ r _ _ Hp Hl).
      destruct (nonempty_length _ Hp) as [m Hm].
      rewrite !length_app, Hm in Hn.
      assert (occurs q (replace_all p r rest) = false) as Hrest.
      { apply IH; [lia|].
        destruct Hq as [Hq | ->]; [left | now right].
        apply occurs_false_app in Hq as [_ Hq].
        now apply occurs_false_app in Hq as [_ Hq]. }
      assert (occurs q pre = false) as Hpre.
      { destruct Hq as [Hq | ->].
        - now apply occurs_false_app in Hq as [Hq _].
        - now apply leftmost_absent with (rest := rest). }
      destruct (occurs q (pre ++ r ++ replace_all p r rest)) eqn:E;
        [|reflexivity].
      destruct (occurs_around _ _ _ _ Ht E) as [H | H]; congruence.
    + rewrite (replace_absent _ _ _ Ho).
      destruct Hq as [Hq | ->]; assumption.
Qed.

Lemma sequential_absent (qs : list text) (rs : list rule) :
  (forall q rl, In q qs -> In rl rs -> touch_free q (snd rl) = true) ->
  (forall rl, In rl rs -> nonempty (fst rl) = true) ->
  forall s q, In q qs ->
    occurs q s = false \/ In q (map fst rs) ->
    occurs q (sequential rs s) = false.
Proof.
  induction rs as [|[p r] rs IH]; intros Ht Hne s q Hq Hs.
  - destruct Hs as [Hs | []]. exact Hs.
  - rewrite sequential_cons. cbn [fst snd].
    apply IH; try assumption.
    + intros q' rl Hq' Hrl. apply Ht; [assumption | now right].
    + intros rl Hrl. apply Hne. now right.
    + assert (occurs q s = false \/ q = p \/ In q (map fst rs)) as Hs'.
      { destruct Hs as [Hs | [Hs | Hs]]; auto. }
      destruct Hs' as [Hs' | [Hs' | Hs']]; [left | left | now right].
      * apply (absent_after_rule q p r) with (n := length s); auto.
        -- apply (Hne (p, r)). now left.
        -- apply (Ht q (p, r)); [assumption | now left].
      * apply (absent_after_rule q p r) with (n := length s); auto.
        -- apply (Hne (p, r)). now left.
        -- apply (Ht q (p, r)); [assumption | now left].
Qed.

Lemma no_overlap_spec (rs : list rule) :
  no_overlap rs = true ->
  (forall q rl, In q (map fst rs) -> In rl rs -> touch_free q (snd rl) = true)
  /\ (forall rl, In rl rs -> nonempty (fst rl) = true).
Proof.
  unfold no_overlap. rewrite forallb_forall. intros H. split.
  - intros q rl Hq Hrl. specialize (H q Hq).
    apply andb_prop in H as [_ H]. rewrite forallb_forall in H.
    apply H. now apply in_map.
  - intros rl Hrl. specialize (H (fst rl) (in_map fst _ _ Hrl)).
    now apply andb_prop in H as [H _].
Qed.

(** After a run under [no_overlap] no pattern of the list is left. *)
Lemma sequential_clean (rs : list rule) (s : text) :
  no_overlap rs = true ->
  forall q, In q (map fst rs) -> occurs q (sequential rs s) = false.
Proof.
  intros H q Hq. destruct (no_overlap_spec _ H) as [Ht Hne].
  apply (sequential_absent (map fst rs) rs Ht Hne); [exact Hq | now right].
Qed.

(** A text without any of the patterns goes through the rules unchanged and
    uncounted. *)
Lemma sequential_fixed (rs : list rule) (s : text) :
  (forall q, In q (map fst rs) -> occurs q s = false) ->
  sequential rs s = s /\ sequential_count rs s = O.
Proof.
  induction rs as [|[p r] rs IH]; intros H; [now split|].
  rewrite sequential_cons. cbn [fst snd sequential_count].
  assert (occurs p s = false) as Hp by (apply H; now left).
  rewrite (replace_absent _ _ _ Hp), (count_absent _ _ Hp).
  apply IH. intros q Hq. apply H. now right.
Qed.

Lemma sequential_idempotent (rs : list rule) (s : text) :
  no_overlap rs = true ->
  sequential rs (sequential rs s) = sequential rs s
  /\ sequential_count rs (sequential rs s) = O.
Proof. intros H. apply sequential_fixed, sequential_clean, H. Qed.

(** ** [re.sub] on a pattern without special characters *)

Lemma special_false (c : char) :
  Re.special c = false ->
  (c =? 124) = false /\ (c =? 92) = false /\ (c =? 46) = false
  /\ Re.is_quant c = false.
Proof.
  unfold Re.special, Re.is_quant. cbn [existsb]. intros H.
  repeat (apply orb_false_iff in H as [? H]).
  repeat split; try assumption.
  repeat (apply orb_false_iff; split; try assumption).
Qed.

Lemma parse_literal (p : text) :
  forallb (fun c => negb (Re.special c)) p = true ->
  forall fuel, (length p < fuel)%nat -> Re.parse fuel p = Some (lit p).
Proof.
  induction p as [|c p IH]; intros Hp [|fuel] Hf; try (simpl in Hf; lia).
  - reflexivity.
  - cbn [forallb] in Hp. apply andb_prop in Hp as [Hc Hp].
    apply negb_true_iff in Hc.
    destruct (special_false _ Hc) as (H124 & H92 & H46 & _).
    cbn [Re.parse Re.parse_atom]. rewrite H124, H92, H46, Hc.
    assert (Re.parse_quant p = Some (Re.QOne, p)) as Hq.
    { destruct p as [|d p']; [reflexivity|].
      cbn [forallb] in Hp. apply andb_prop in Hp as [Hd _].
      apply negb_true_iff in Hd.
      destruct (special_false _ Hd) as (_ & _ & _ & Hqd).
      cbn [Re.parse_quant]. now rewrite Hqd. }
    rewrite Hq, (IH Hp fuel) by (simpl in Hf; lia).
    reflexivity.
Qed.

Lemma compile_literal (p : text) :
  forallb (fun c => negb (Re.special c)) p = true ->
  Re.compile p = Some (lit p).
Proof. intros H. apply parse_literal; [exact H | lia]. Qed.

Lemma expand_plain (r : text) :
  forallb (fun c => negb (c =? 92)) r = true -> Re.expand r = Some r.
Proof.
  induction r as [|c r IH]; intros H; [reflexivity|].
  cbn [forallb] in H. apply andb_prop in H as [Hc Hr].
  apply negb_true_iff in Hc. cbn [Re.expand].
  now rewrite Hc, (IH Hr).
Qed.

Lemma match_items_literal (p : text) (k : text -> option text) :
  forall s,
    Re.match_items (map (fun c => (Re.AChr c, Re.QOne)) p) k s
    = if is_prefix p s then k (skipn (length p) s) else None.
Proof.
  induction p as [|x p IH]; intros s; [reflexivity|].
  cbn [map Re.match_items]. destruct s as [|c s]; [reflexivity|].
  cbn [Re.atom_ok is_prefix length skipn].
  destruct (x =? c); [apply IH | reflexivity].
Qed.

Lemma match_at_literal (p : text) (ma : bool) (s : text) :
  Re.match_at (lit p) ma s
  = if is_prefix p s
    then if ma && (length (skipn (length p) s) =? length s)%nat
         then None else Some (skipn (length p) s)
    else None.
Proof.
  unfold Re.match_at, lit. cbn [Re.match_alts].
  rewrite match_items_literal.
  destruct (is_prefix p s); [|reflexivity].
  now destruct (ma && _).
Qed.

Lemma sub_loop_literal (p r : text) :
  forall s k, Re.sub_loop (lit p) r k s = replace_from p r k s.
Proof.
  induction s as [|c s IH]; intros k.
  - cbn [Re.sub_loop replace_from]. rewrite match_at_literal.
    now destruct (is_prefix p []).
  - destruct k as [|k]; cbn [Re.sub_loop replace_from]; [|apply IH].
    rewrite match_at_literal.
    destruct (is_prefix p (c :: s)) eqn:E; [|now rewrite IH].
    cbn [andb]. rewrite length_skipn.
    pose proof (is_prefix_length _ _ E) as Hle.
    replace (length (c :: s) - (length (c :: s) - length p))%nat
      with (length p) by lia.
    destruct (length p) eqn:Hl; [|now rewrite IH].
    rewrite match_at_literal, E, Hl. cbn [skipn andb].
    rewrite Nat.eqb_refl. now rewrite IH.
Qed.

Lemma count_loop_literal (p : text) :
  forall s k, Re.count_loop (lit p) k s = count_from p k s.
Proof.
  induction s as [|c s IH]; intros k.
  - cbn [Re.count_loop count_from]. rewrite match_at_literal.
    now destruct (is_prefix p []).
  - destruct k as [|k]; cbn [Re.count_loop count_from]; [|apply IH].
    rewrite match_at_literal.
    destruct (is_prefix p (c :: s)) eqn:E; [|now rewrite IH].
    cbn [andb]. rewrite length_skipn.
    pose proof (is_prefix_length _ _ E) as Hle.
    replace (length (c :: s) - (length (c :: s) - length p))%nat
      with (length p) by lia.
    destruct (length p) eqn:Hl; [|now rewrite IH].
    rewrite match_at_literal, E, Hl. cbn [skipn andb].
    rewrite Nat.eqb_refl. now rewrite IH.
Qed.

Lemma sub_literal (rl : rule) (s : text) :
  literal_rule rl = true ->
  Re.sub (fst rl) (snd rl) s = Some (replace_all (fst rl) (snd rl) s)
  /\ Re.subn_count (fst rl) (snd rl) s = Some (count_all (fst rl) s).
Proof.
  intros H. apply andb_prop in H as [Hp Hr].
  unfold Re.sub, Re.subn_count.
  rewrite (compile_literal _ Hp), (expand_plain _ Hr).
  now rewrite sub_loop_literal, count_loop_literal.
Qed.

(** The loop of the scripts on literal rules is the sequence of plain
    substitutions. *)
Lemma apply_literal (rs : list rule) :
  literal_rules rs = true ->
  forall s,
    apply_replacements rs s = Some (sequential rs s)
    /\ count_replacements rs s = Some (sequential_count rs s).
Proof.
  induction rs as [|[p r] rs IH]; intros H s; [now split|].
  cbn [literal_rules forallb] in H. apply andb_prop in H as [Hrl Hrs].
  destruct (sub_literal (p, r) s Hrl) as [Hs Hc]. cbn [fst snd] in Hs, Hc.
  cbn [apply_replacements count_replacements]. rewrite Hs, Hc.
  destruct (IH Hrs (replace_all p r s)) as [Ha Hn].
  rewrite sequential_cons. cbn [fst snd sequential_count].
  now rewrite Ha, Hn.
Qed.

(** ** Insertions *)

Lemma text_eqb_eq (a b : text) : text_eqb a b = true -> a = b.
Proof.
  revert b; induction a as [|x a IH]; intros [|y b] H; simpl in H;
    try reflexivity; try discriminate.
  apply andb_prop in H as [Hxy H]. apply N.eqb_eq in Hxy.
  f_equal; [exact Hxy | now apply IH].
Qed.

Lemma Inserted_prepend (k ins x : text) (n : nat) (s out : text) :
  Inserted k ins n s out -> Inserted k ins n (x ++ s) (x ++ out).
Proof.
  intros H. destruct H as [s | g n s out H].
  - constructor.
  - rewrite !(app_assoc x g). now constructor.
Qed.

Lemma Inserted_app (k ins : text) (n m : nat) (s out s' out' : text) :
  Inserted k ins n s out -> Inserted k ins m s' out' ->
  Inserted k ins (n + m) (s ++ s') (out ++ out').
Proof.
  intros H H'. induction H as [s | g n s out H IH].
  - now apply Inserted_prepend.
  - rewrite <- !app_assoc. cbn [Nat.add]. now constructor.
Qed.


Lemma block_run_nonempty (rs : list rule) :
  forall b res, block_run rs b = Some res ->
  forall rl, In rl rs -> nonempty (fst rl) = true.
Proof.
  induction rs as [|[p r] rs IH]; intros b res H rl Hin; [destruct Hin|].
  cbn [block_run] in H.
  destruct (block_step (p, r) b) as [[b1 n1]|] eqn:E1; [|discriminate].
  destruct (block_run rs b1) as [[b2 n2]|] eqn:E2; [|discriminate].
  destruct Hin as [<- | Hin].
  - cbn [block_step fst] in *. now destruct (nonempty p).
  - now apply (IH _ _ E2).
Qed.

(** Under [prefixing] a run puts one [ins] after the [k] of each occurrence
    it rewrites, and nothing else. *)
Lemma prefixing_inserted (k ins : text) (rs : list rule) :
  prefixing k ins rs = true ->
  forall n s, (length s <= n)%nat ->
    Inserted k ins (sequential_count rs s) s (sequential rs s).
Proof.
  intros Hpf. unfold prefixing in Hpf. rewrite forallb_forall in Hpf.
  induction n as [|n IH]; intros s Hn.
  - destruct s; [|simpl in Hn; lia].
    destruct (existsb (fun rl => occurs (fst rl) []) rs) eqn:Ex.
    + apply existsb_exists in Ex as ([p r] & Hin & Ho). cbn [fst] in Ho.
      specialize (Hpf _ Hin). cbn [fst snd] in Hpf.
      apply andb_prop in Hpf as [_ Hb].
      destruct (block_run rs p) as [res|] eqn:Eb; [|discriminate].
      pose proof (block_run_nonempty _ _ _ Eb _ Hin) as Hne. cbn [fst] in Hne.
      simpl in Ho. now rewrite (nonempty_not_prefix_nil _ Hne) in Ho.
    + destruct (sequential_fixed rs []) as [-> ->]; [|constructor].
      intros q Hq. apply in_map_iff in Hq as (rl & <- & Hin).
      destruct (occurs (fst rl) []) eqn:E; [|reflexivity].
      assert (existsb (fun rl => occurs (fst rl) []) rs = true)
        by (apply existsb_exists; eauto).
      congruence.
  - destruct (existsb (fun rl => occurs (fst rl) s) rs) eqn:Ex.
    + apply existsb_exists in Ex as ([p r] & Hin & Ho). cbn [fst] in Ho.
      specialize (Hpf _ Hin). cbn [fst snd] in Hpf.
      apply andb_prop in Hpf as [Hpf Hb]. apply andb_prop in Hpf as [Hk Hr].
      destruct (block_run rs p) as [[b c]|] eqn:Eb; [|discriminate].
      apply andb_prop in Hb as [Hb Hc].
      apply text_eqb_eq in Hb, Hr. apply Nat.eqb_eq in Hc. subst b c.
      pose proof (block_run_nonempty _ _ _ Eb _ Hin) as Hne. cbn [fst] in Hne.
      destruct (leftmost_exists _ _ Ho) as (pre & rest & -> & _).
      destruct (block_run_sound _ _ _ _ Eb pre rest) as [-> ->].
      destruct (nonempty_length _ Hne) as [m Hm].
      rewrite !length_app, Hm in Hn.
      rewrite <- Nat.add_assoc. apply Inserted_app; [apply IH; lia|].
      apply is_prefix_inv in Hk.
      set (nm := skipn (length k) p) in *.
      rewrite Hr, Hk, <- !app_assoc.
      apply (Ins_more k ins []), Inserted_prepend, IH. lia.
    + destruct (sequential_fixed rs s) as [-> ->]; [|constructor].
      intros q Hq. apply in_map_iff in Hq as (rl & <- & Hin).
      destruct (occurs (fst rl) s) eqn:E; [|reflexivity].
      assert (existsb (fun rl => occurs (fst rl) s) rs = true)
        by (apply existsb_exists; eauto).
      congruence.
Qed.

(** ** The relation [GlobalSubst] and the scan *)

Lemma replace_GlobalSubst (p r : text) :
  nonempty p = true ->
  forall n s, (length s <= n)%nat -> GlobalSubst p r s (replace_all p r s).
Proof.
  intros Hp. induction n as [|n IH]; intros s Hn;
    destruct (occurs p s) eqn:Ho;
    try (rewrite (replace_absent _ _ _ Ho); now constructor).
  - destruct s; [|simpl in Hn; lia].
    simpl in Ho. now rewrite (nonempty_not_prefix_nil _ Hp) in Ho.
  - destruct (leftmost_exists _ _ Ho) as (pre & rest & -> & Hl).
    rewrite (replace_leftmost _ r _ _ Hp Hl).
    constructor; [exact Hl|]. apply IH.
    destruct (nonempty_length _ Hp) as [m Hm].
    rewrite !length_app, Hm in Hn. lia.
Qed.

Lemma GlobalSubst_unique (p r s out : text) :
  nonempty p = true -> GlobalSubst p r s out -> out = replace_all p r s.
Proof.
  intros Hp H. induction H as [s Ho | pre rest out Hl H IH].
  - now rewrite replace_absent.
  - now rewrite (replace_leftmost _ r _ _ Hp Hl), IH.
Qed.

Lemma sequential_Chain (rs : list rule) :
  forallb (fun rl => nonempty (fst rl)) rs = true ->
  forall s, Chain rs s (sequential rs s)
            /\ forall out, Chain rs s out -> out = sequential rs s.
Proof.
  induction rs as [|[p r] rs IH]; intros H s.
  - split; [constructor | now inversion 1].
  - cbn [forallb fst] in H. apply andb_prop in H as [Hp Hrs].
    rewrite sequential_cons. cbn [fst snd]. split.
    + econstructor; [|apply (IH Hrs)].
      now apply (replace_GlobalSubst p r Hp (length s)).
    + intros out Hc. inversion Hc as [|p' r' rs' s' s1 s2 Hg Hc']; subst.
      apply (GlobalSubst_unique _ _ _ _ Hp) in Hg. subst s1.
      now apply (IH Hrs).
Qed.

(** ** Lengths *)

Lemma replace_length (p r : text) :
  nonempty p = true ->
  forall n s, (length s <= n)%nat ->
    (length (replace_all p r s) + count_all p s * length p
     = length s + count_all p s * length r)%nat.
Proof.
  intros Hp. induction n as [|n IH]; intros s Hn;
    destruct (occurs p s) eqn:Ho;
    try (rewrite (replace_absent _ _ _ Ho), (count_absent _ _ Ho); lia).
  - destruct s; [|simpl in Hn; lia].
    simpl in Ho. now rewrite (nonempty_not_prefix_nil _ Hp) in Ho.
  - destruct (leftmost_exists _ _ Ho) as (pre & rest & -> & Hl).
    rewrite (replace_leftmost _ r _ _ Hp Hl), (count_leftmost _ _ _ Hp Hl).
    destruct (nonempty_length _ Hp) as [m Hm].
    rewrite !length_app in *.
    assert (length rest <= n)%nat as Hrest by lia.
    specialize (IH rest Hrest). lia.
Qed.

Lemma app_same_length {A} (a b x y : list A) :
  length a = length b -> a ++ x = b ++ y -> a = b.
Proof.
  revert b; induction a as [|u a IH]; intros [|v b] Hl H;
    try discriminate; [reflexivity|].
  injection H as -> H. injection Hl as Hl. f_equal. now apply IH.
Qed.

(** A substitution that finds its pattern changes the text, unless the
    replacement is the pattern. *)
Lemma replace_changes (p r s : text) :
  nonempty p = true -> occurs p s = true -> r <> p ->
  replace_all p r s <> s.
Proof.
  intros Hp Ho Hrp Heq.
  destruct (leftmost_exists _ _ Ho) as (pre & rest & -> & Hl).
  rewrite (replace_leftmost _ r _ _ Hp Hl) in Heq.
  apply app_inv_head in Heq.
  pose proof (replace_length p r Hp (length rest) rest (le_n _)) as Hlen.
  pose proof (f_equal (@length char) Heq) as Hlen'.
  rewrite !length_app in Hlen'.
  assert (S (count_all p rest) * length r = S (count_all p rest) * length p)%nat
    as Hmul by (cbn [Nat.mul]; lia).
  apply Nat.mul_cancel_l in Hmul; [|discriminate].
  apply Hrp, (app_same_length _ _ _ _ Hmul Heq).
Qed.

(** ** One pass with all the rules *)

Lemma simultaneous_skip (rs : list rule) (u s : text) :
  simultaneous_from rs (length u) (u ++ s) = simultaneous_from rs 0 s.
Proof. induction u as [|c u IH]; [reflexivity | exact IH]. Qed.

(** ** The UTF-8 codec *)

Lemma div_eq (a b q r : N) : r < b -> a = b * q + r -> a / b = q.
Proof. intros Hr Ha. symmetry. exact (N.div_unique a b q r Hr Ha). Qed.

Lemma mod_eq (a b q r : N) : r < b -> a = b * q + r -> a mod b = r.
Proof. intros Hr Ha. symmetry. exact (N.mod_unique a b q r Hr Ha). Qed.

Lemma encode_char_1 (b0 : N) :
  b0 < 128 -> Utf8.encode_char b0 = Some [b0].
Proof.
  intros H. unfold Utf8.encode_char.
  apply N.ltb_lt in H. now rewrite H.
Qed.

Lemma encode_char_2 (b0 b1 : N) :
  194 <= b0 <= 223 -> 128 <= b1 <= 191 ->
  Utf8.encode_char ((b0 - 192) * 64 + (b1 - 128)) = Some [b0; b1].
Proof.
  intros H0 H1. unfold Utf8.encode_char.
  set (c := (b0 - 192) * 64 + (b1 - 128)).
  assert (c / 64 = b0 - 192) as Hq
      by (apply (div_eq _ _ _ (b1 - 128)); subst c; lia).
  assert (c mod 64 = b1 - 128) as Hr
      by (apply (mod_eq _ _ (b0 - 192)); subst c; lia).
  destruct (c <? 128) eqn:E1; [bools; subst c; lia|].
  destruct (c <? 2048) eqn:E2; [|bools; subst c; lia].
  rewrite Hq, Hr. repeat f_equal; lia.
Qed.

Lemma encode_char_3 (b0 b1 b2 : N) :
  224 <= b0 <= 239 -> 128 <= b1 <= 191 -> 128 <= b2 <= 191 ->
  (b0 = 224 -> 160 <= b1) -> (b0 = 237 -> b1 <= 159) ->
  Utf8.encode_char ((b0 - 224) * 4096 + (b1 - 128) * 64 + (b2 - 128))
  = Some [b0; b1; b2].
Proof.
  intros H0 H1 H2 Hlo Hhi. unfold Utf8.encode_char.
  set (c := (b0 - 224) * 4096 + (b1 - 128) * 64 + (b2 - 128)).
  assert (c / 4096 = b0 - 224) as Hq
      by (apply (div_eq _ _ _ ((b1 - 128) * 64 + (b2 - 128))); subst c; lia).
  assert (c / 64 = (b0 - 224) * 64 + (b1 - 128)) as Hq1
      by (apply (div_eq _ _ _ (b2 - 128)); subst c; lia).
  assert (c mod 64 = b2 - 128) as Hr
      by (apply (mod_eq _ _ ((b0 - 224) * 64 + (b1 - 128))); subst c; lia).
  assert ((c / 64) mod 64 = b1 - 128) as Hr1
      by (rewrite Hq1; apply (mod_eq _ _ (b0 - 224)); lia).
  assert (b0 = 224 \/ b0 = 237 \/ (b0 <> 224 /\ b0 <> 237)) as Hcase by lia.
  destruct (c <? 128) eqn:E1; [bools; subst c; lia|].
  destruct (c <? 2048) eqn:E2; [bools; subst c; lia|].
  destruct (c <? 65536) eqn:E3; [|bools; subst c; lia].
  destruct ((55296 <=? c) && (c <=? 57343)) eqn:E4; [bools; subst c; lia|].
  rewrite Hq, Hr, Hr1. repeat f_equal; lia.
Qed.

Lemma encode_char_4 (b0 b1 b2 b3 : N) :
  240 <= b0 <= 244 -> 128 <= b1 <= 191 -> 128 <= b2 <= 191 ->
  128 <= b3 <= 191 ->
  (b0 = 240 -> 144 <= b1) -> (b0 = 244 -> b1 <= 143) ->
  Utf8.encode_char ((b0 - 240) * 262144 + (b1 - 128) * 4096
                    + (b2 - 128) * 64 + (b3 - 128))
  = Some [b0; b1; b2; b3].
Proof.
  intros H0 H1 H2 H3 Hlo Hhi. unfold Utf8.encode_char.
  set (c := (b0 - 240) * 262144 + (b1 - 128) * 4096
            + (b2 - 128) * 64 + (b3 - 128)).
  assert (c / 262144 = b0 - 240) as Hq
      by (apply (div_eq _ _ _ ((b1 - 128) * 4096 + (b2 - 128) * 64 + (b3 - 128)));
          subst c; lia).
  assert (c / 4096 = (b0 - 240) * 64 + (b1 - 128)) as Hq1
      by (apply (div_eq _ _ _ ((b2 - 128) * 64 + (b3 - 128))); subst c; lia).
  assert (c / 64 = (b0 - 240) * 4096 + (b1 - 128) * 64 + (b2 - 128)) as Hq2
      by (apply (div_eq _ _ _ (b3 - 128)); subst c; lia).
  assert (c mod 64 = b3 - 128) as Hr
      by (apply (mod_eq _ _ ((b0 - 240) * 4096 + (b1 - 128) * 64 + (b2 - 128)));
          subst c; lia).
  assert ((c / 64) mod 64 = b2 - 128) as Hr2
      by (rewrite Hq2; apply (mod_eq _ _ ((b0 - 240) * 64 + (b1 - 128))); lia).
  assert ((c / 4096) mod 64 = b1 - 128) as Hr1
      by (rewrite Hq1; apply (mod_eq _ _ (b0 - 240)); lia).
  assert (b0 = 240 \/ b0 = 244 \/ (b0 <> 240 /\ b0 <> 244)) as Hcase by lia.
  destruct (c <? 128) eqn:E1; [bools; subst c; lia|].
  destruct (c <? 2048) eqn:E2; [bools; subst c; lia|].
  destruct (c <? 65536) eqn:E3; [bools; subst c; lia|].
  destruct (c <? 1114112) eqn:E4; [|bools; subst c; lia].
  rewrite Hq, Hr, Hr1, Hr2. repeat f_equal; lia.
Qed.

(** What decodes encodes back to the same bytes. *)
Lemma decode_encode :
  forall n bs t, (length bs <= n)%nat ->
    Utf8.decode bs = Some t -> Utf8.encode t = Some bs.
Proof.
  induction n as [|n IH]; intros bs t Hn H.
  - destruct bs; [|simpl in Hn; lia]. now injection H as <-.
  - destruct bs as [|b0 r0]; [now injection H as <-|].
    cbn [Utf8.decode] in H. simpl in Hn.
    destruct (b0 <? 128) eqn:E1.
    { destruct (Utf8.decode r0) as [t0|] eqn:Er; [|discriminate].
      injection H as <-. cbn [Utf8.encode]. bools.
      rewrite (encode_char_1 _ E1), (IH r0 t0) by (assumption || lia).
      reflexivity. }
    destruct ((194 <=? b0) && (b0 <=? 223)) eqn:E2.
    { destruct r0 as [|b1 r1]; [discriminate|].
      destruct (Utf8.cont b1) eqn:C1; [|discriminate].
      destruct (Utf8.decode r1) as [t0|] eqn:Er; [|discriminate].
      injection H as <-. cbn [Utf8.encode]. simpl in Hn. bools.
      rewrite (encode_char_2 b0 b1), (IH r1 t0) by (assumption || lia).
      reflexivity. }
    destruct ((224 <=? b0) && (b0 <=? 239)) eqn:E3.
    { destruct r0 as [|b1 [|b2 r2]]; try discriminate.
      destruct (Utf8.cont b1 && Utf8.cont b2
                && (if b0 =? 224 then 160 <=? b1 else true)
                && (if b0 =? 237 then b1 <=? 159 else true)) eqn:C;
        [|discriminate].
      destruct (Utf8.decode r2) as [t0|] eqn:Er; [|discriminate].
      injection H as <-. cbn [Utf8.encode]. simpl in Hn.
      apply andb_prop in C as [C Chi]. apply andb_prop in C as [C Clo].
      assert (b0 = 224 -> 160 <= b1) as Hlo
          by (intros ->; now apply N.leb_le).
      assert (b0 = 237 -> b1 <= 159) as Hhi
          by (intros ->; now apply N.leb_le).
      clear Clo Chi. bools.
      rewrite (encode_char_3 b0 b1 b2), (IH r2 t0) by (assumption || lia).
      reflexivity. }
    destruct ((240 <=? b0) && (b0 <=? 244)) eqn:E4; [|discriminate].
    destruct r0 as [|b1 [|b2 [|b3 r3]]]; try discriminate.
    destruct (Utf8.cont b1 && Utf8.cont b2 && Utf8.cont b3
              && (if b0 =? 240 then 144 <=? b1 else true)
              && (if b0 =? 244 then b1 <=? 143 else true)) eqn:C;
      [|discriminate].
    destruct (Utf8.decode r3) as [t0|] eqn:Er; [|discriminate].
    injection H as <-. cbn [Utf8.encode]. simpl in Hn.
    apply andb_prop in C as [C Chi]. apply andb_prop in C as [C Clo].
    assert (b0 = 240 -> 144 <= b1) as Hlo
        by (intros ->; now apply N.leb_le).
    assert (b0 = 244 -> b1 <= 143) as Hhi
        by (intros ->; now apply N.leb_le).
    clear Clo Chi. bools.
    rewrite (encode_char_4 b0 b1 b2 b3), (IH r3 t0) by (assumption || lia).
    reflexivity.
Qed.

Lemma scalar_spec (c : char) :
  scalar c = true <-> c < 55296 \/ (57343 < c /\ c < 1114112).
Proof.
  unfold scalar.
  rewrite orb_true_iff, andb_true_iff, !N.ltb_lt. reflexivity.
Qed.

Lemma encode_char_scalar (c : char) :
  scalar c = true <-> exists bs, Utf8.encode_char c = Some bs.
Proof.
  rewrite scalar_spec. unfold Utf8.encode_char.
  destruct (c <? 128) eqn:E1; [bools; split; [eauto | lia]|].
  destruct (c <? 2048) eqn:E2; [bools; split; [eauto | lia]|].
  destruct (c <? 65536) eqn:E3.
  - destruct ((55296 <=? c) && (c <=? 57343)) eqn:E4.
    + bools. split; [lia | intros [bs Hbs]; discriminate].
    + apply andb_false_iff in E4. split; [eauto | intros _].
      destruct E4; bools; lia.
  - destruct (c <? 1114112) eqn:E4; bools.
    + split; [eauto | lia].
    + split; [lia | intros [bs Hbs]; discriminate].
Qed.

Lemma encode_scalar (t : text) :
  forallb scalar t = true <-> exists bs, Utf8.encode t = Some bs.
Proof.
  induction t as [|c t IH]; cbn [forallb Utf8.encode]; [split; eauto|].
  rewrite andb_true_iff, IH, encode_char_scalar. split.
  - intros [[b ->] [bs ->]]. eauto.
  - destruct (Utf8.encode_char c); [|intros [? ?]; discriminate].
    destruct (Utf8.encode t); [eauto | intros [? ?]; discriminate].
Qed.

Lemma decode_scalar (bs : list Utf8.byte) (t : text) :
  Utf8.decode bs = Some t -> forallb scalar t = true.
Proof.
  intros H. apply encode_scalar. exists bs.
  now apply (decode_encode (length bs)).
Qed.

(** ** Line endings *)

Lemma write_newlines_posix (t : text) : write_newlines Posix t = t.
Proof.
  unfold write_newlines. induction t as [|c t IH]; [reflexivity|].
  cbn [flat_map]. rewrite IH.
  destruct (c =? 10) eqn:E; [|reflexivity].
  apply N.eqb_eq in E. now subst c.
Qed.

Lemma read_newlines_no_cr (t : text) :
  forallb (fun c => negb (c =? 13)) t = true -> read_newlines t = t.
Proof.
  induction t as [|c t IH]; intros H; [reflexivity|].
  cbn [forallb] in H. apply andb_prop in H as [Hc Ht].
  apply negb_true_iff in Hc. cbn [read_newlines].
  now rewrite Hc, (IH Ht).
Qed.

Lemma newlines_windows :
  forall n t, (length t <= n)%nat -> crlf_only t = true ->
    write_newlines Windows (read_newlines t) = t.
Proof.
  induction n as [|n IH]; intros t Hn H.
  - destruct t; [reflexivity | simpl in Hn; lia].
  - destruct t as [|c t]; [reflexivity|].
    cbn [crlf_only read_newlines] in *. simpl in Hn.
    destruct (c =? 13) eqn:Ec.
    + destruct t as [|d t]; [discriminate|].
      apply andb_prop in H as [Hd Ht]. rewrite Hd. simpl in Hn.
      apply N.eqb_eq in Ec, Hd. subst c d.
      unfold write_newlines in *. cbn [flat_map N.eqb Pos.eqb linesep app].
      rewrite IH by (assumption || lia). reflexivity.
    + apply andb_prop in H as [Hc Ht]. apply negb_true_iff in Hc.
      unfold write_newlines in *. cbn [flat_map]. rewrite Hc.
      rewrite IH by (assumption || lia). reflexivity.
Qed.

Lemma native_roundtrip (o : platform) (t : text) :
  native_newlines o t = true -> write_newlines o (read_newlines t) = t.
Proof.
  destruct o; cbn [native_newlines]; intros H.
  - now rewrite write_newlines_posix, read_newlines_no_cr.
  - now apply (newlines_windows (length t)).
Qed.

(** ** Scalar values stay scalar values *)

Lemma read_newlines_scalar :
  forall n t, (length t <= n)%nat -> forallb scalar t = true ->
    forallb scalar (read_newlines t) = true.
Proof.
  induction n as [|n IH]; intros t Hn H.
  - destruct t; [reflexivity | simpl in Hn; lia].
  - destruct t as [|c t]; [reflexivity|].
    cbn [forallb read_newlines] in *. simpl in Hn.
    apply andb_prop in H as [Hc Ht].
    destruct (c =? 13).
    + cbn [forallb]. change (scalar 10) with true. cbn [andb].
      destruct t as [|d t]; [reflexivity|].
      cbn [forallb] in Ht. apply andb_prop in Ht as [Hd Ht'].
      simpl in Hn. destruct (d =? 10).
      * apply IH; [lia | exact Ht'].
      * apply IH; [simpl; lia|]. cbn [forallb]. now rewrite Hd.
    + cbn [forallb]. rewrite Hc. apply IH; [lia | exact Ht].
Qed.

Lemma write_newlines_scalar (o : platform) (t : text) :
  forallb scalar t = true -> forallb scalar (write_newlines o t) = true.
Proof.
  unfold write_newlines. induction t as [|c t IH]; intros H; [reflexivity|].
  cbn [forallb flat_map] in *. apply andb_prop in H as [Hc Ht].
  rewrite forallb_app, (IH Ht), andb_true_r.
  destruct (c =? 10); [now destruct o | cbn [forallb]; now rewrite Hc].
Qed.

Lemma replace_from_forallb (P : char -> bool) (p r : text) :
  forallb P r = true ->
  forall s k, forallb P s = true -> forallb P (replace_from p r k s) = true.
Proof.
  intros Hr. induction s as [|c s IH]; intros k H.
  - cbn [replace_from]. now destruct (is_prefix p []).
  - cbn [forallb] in H. apply andb_prop in H as [Hc Hs].
    destruct k as [|k]; cbn [replace_from]; [|now apply IH].
    destruct (is_prefix p (c :: s)).
    + rewrite forallb_app, Hr. cbn [andb].
      destruct (length p); [cbn [forallb]; rewrite Hc|]; now apply IH.
    + cbn [forallb]. rewrite Hc. now apply IH.
Qed.

Lemma sequential_forallb (P : char -> bool) (rs : list rule) :
  forallb (fun rl => forallb P (snd rl)) rs = true ->
  forall s, forallb P s = true -> forallb P (sequential rs s) = true.
Proof.
  induction rs as [|[p r] rs IH]; intros H s Hs; [exact Hs|].
  cbn [forallb snd] in H. apply andb_prop in H as [Hr Hrs].
  rewrite sequential_cons. apply (IH Hrs).
  now apply replace_from_forallb.
Qed.

(** ** A run of a script, case by case *)

Section Script.

Variables (target : path) (rs : list rule) (msg : text).
Hypothesis Hlit : literal_rules rs = true.
Hypothesis Hscalar : forallb (fun rl => forallb scalar (snd rl)) rs = true.

Lemma script_missing (w : world) :
  fs w target = None ->
  script target rs msg w = (w, Raise FileNotFoundError).
Proof. intros E. unfold script, bind, read_text. now rewrite E. Qed.

Lemma script_unreadable (w : world) (f : file) :
  fs w target = Some f -> readable f = false ->
  script target rs msg w = (w, Raise PermissionError).
Proof. intros E R. unfold script, bind, read_text. now rewrite E, R. Qed.

Lemma script_undecodable (w : world) (f : file) :
  fs w target = Some f -> readable f = true ->
  Utf8.decode (data f) = None ->
  script target rs msg w = (w, Raise UnicodeDecodeError).
Proof.
  intros E R D. unfold script, bind, read_text. now rewrite E, R, D.
Qed.

Lemma script_reads (w : world) (f : file) (t : text) :
  fs w target = Some f -> readable f = true ->
  Utf8.decode (data f) = Some t ->
  script target rs msg w
  = bind (write_text target (sequential rs (read_newlines t)))
         (fun _ => print msg) w.
Proof.
  intros E R D. unfold script at 1, bind at 1 2, read_text.
  rewrite E, R, D. unfold run_replacements.
  now rewrite (proj1 (apply_literal rs Hlit _)).
Qed.

Lemma script_unwritable (w : world) (f : file) (t : text) :
  fs w target = Some f -> readable f = true ->
  Utf8.decode (data f) = Some t -> writable f = false ->
  script target rs msg w = (w, Raise PermissionError).
Proof.
  intros E R D W. rewrite (script_reads w f t E R D).
  unfold bind, write_text. now rewrite E, W.
Qed.

Lemma script_writes (w : world) (f : file) (t : text) :
  fs w target = Some f -> readable f = true ->
  Utf8.decode (data f) = Some t -> writable f = true ->
  exists bs,
    Utf8.encode (write_newlines (os w) (sequential rs (read_newlines t)))
    = Some bs
    /\ script target rs msg w
       = (mkWorld (os w) (store (fs w) target (mkFile true true bs))
                  (stdout w ++ [msg]),
          Return tt).
Proof.
  intros E R D W. rewrite (script_reads w f t E R D).
  assert (forallb scalar
            (write_newlines (os w) (sequential rs (read_newlines t))) = true)
    as Hs.
  { apply write_newlines_scalar, sequential_forallb; [exact Hscalar|].
    apply (read_newlines_scalar (length t)); [lia|].
    now apply decode_scalar with (bs := data f). }
  apply encode_scalar in Hs as [bs Hbs]. exists bs. split; [exact Hbs|].
  unfold bind, write_text, print. rewrite E, W, Hbs. cbn. now rewrite R.
Qed.


End Script.

(** ** The model of [re.sub] and of text files on some inputs

    The values are those Python 3 returns. *)

Example re_sub_empty_matches :
  Re.sub (str "x*") (str "-") (str "abxd") = Some (str "-a-b--d-").
Proof. vm_compute. reflexivity. Qed.

Example re_sub_empty_then_advance :
  Re.sub (str "|a") (str "-") (str "a") = Some (str "---").
Proof. vm_compute. reflexivity. Qed.

Example re_sub_dot :
  Re.sub (str "a.c") (str "-") (str "abcaxcac") = Some (str "--ac").
Proof. vm_compute. reflexivity. Qed.

Example re_sub_alternation :
  Re.sub (str "ab?c|b") (str "-") (str "abcacabb") = Some (str "--a--").
Proof. vm_compute. reflexivity. Qed.

Example re_sub_multiple_repeat :
  Re.sub (str "a**") (str "-") (str "aaa") = None.
Proof. vm_compute. reflexivity. Qed.

Example utf8_check_mark :
  Utf8.decode [226; 156; 133] = Some [9989]
  /\ Utf8.encode [9989] = Some [226; 156; 133].
Proof. split; vm_compute; reflexivity. Qed.

Example utf8_refuses_surrogate : Utf8.decode [237; 160; 128] = None.
Proof. vm_compute. reflexivity. Qed.

Example utf8_refuses_overlong : Utf8.decode [192; 128] = None.
Proof. vm_compute. reflexivity. Qed.

(** ** The two rule tables *)

Lemma tables_literal (s : script_id) : literal_rules (replacements s) = true.
Proof. destruct s; vm_compute; reflexivity. Qed.

Lemma tables_scalar (s : script_id) :
  forallb (fun rl => forallb scalar (snd rl)) (replacements s) = true.
Proof. destruct s; vm_compute; reflexivity. Qed.

Lemma tables_no_overlap (s : script_id) : no_overlap (replacements s) = true.
Proof. destruct s; vm_compute; reflexivity. Qed.

Lemma tables_prefixing (s : script_id) :
  prefixing attribute (added s) (replacements s) = true.
Proof. destruct s; vm_compute; reflexivity. Qed.

Lemma main_script (s : script_id) :
  main s = script (target s) (replacements s) (message s).
Proof. now destruct s. Qed.

(** A block on which the rules act the same way whatever surrounds it. *)
Lemma apply_block (rs : list rule) (b b' : text) (c : nat) :
  literal_rules rs = true -> block_run rs b = Some (b', c) ->
  forall pre post,
  exists pre' post',
    apply_replacements rs pre = Some pre'
    /\ apply_replacements rs post = Some post'
    /\ apply_replacements rs (pre ++ b ++ post) = Some (pre' ++ b' ++ post').
Proof.
  intros Hl Hb pre post.
  exists (sequential rs pre), (sequential rs post).
  rewrite !(proj1 (apply_literal rs Hl _)).
  now rewrite (proj1 (block_run_sound rs _ _ _ Hb pre post)).
Qed.

Lemma apply_idempotent (rs : list rule) (B : text) :
  literal_rules rs = true -> no_overlap rs = true ->
  exists out,
    apply_replacements rs B = Some out
    /\ (forall q, In q (map fst rs) -> occurs q out = false)
    /\ count_replacements rs out = Some O
    /\ apply_replacements rs out = Some out.
Proof.
  intros Hl Hn. exists (sequential rs B).
  destruct (sequential_idempotent rs B Hn) as [Hi Hc].
  rewrite !(proj1 (apply_literal rs Hl _)), (proj2 (apply_literal rs Hl _)).
  rewrite Hi, Hc. repeat split. intros q Hq. now apply sequential_clean.
Qed.

Lemma text_eqb_refl (a : text) : text_eqb a a = true.
Proof. induction a as [|x a IH]; [reflexivity|]. simpl. now rewrite N.eqb_refl. Qed.

Lemma no_overlap_pattern_free (rs : list rule) :
  no_overlap rs = true -> pattern_free_replacements rs = true.
Proof.
  intros H. destruct (no_overlap_spec _ H) as [Ht Hne].
  unfold pattern_free_replacements.
  apply forallb_forall. intros q Hq. apply forallb_forall. intros r Hr.
  apply in_map_iff in Hr as (rl & <- & Hrl).
  apply in_map_iff in Hq as (rq & <- & Hrq).
  apply negb_true_iff.
  destruct (occurs (fst rq) (snd rl)) eqn:E; [|reflexivity].
  assert (occurs (fst rq) ([] ++ snd rl ++ []) = true) as E'
      by now rewrite app_nil_r.
  apply occurs_around in E'; [|apply Ht; [now apply in_map | exact Hrl]].
  simpl in E'. rewrite (nonempty_not_prefix_nil _ (Hne _ Hrq)) in E'.
  now destruct E'.
Qed.

(** * The claims *)

(** C1.  Either script applies its rules one at a time in the order of its
    list: the result is reached through a chain of global substitutions, one
    per rule, each taking the leftmost occurrences of its pattern without
    overlap in the text the rule before it produced; and that chain
    determines the result. *)
Theorem C1_rules_applied_in_order (s : script_id) (B : text) :
  exists out,
    apply_replacements (replacements s) B = Some out
    /\ Chain (replacements s) B out
    /\ forall out', Chain (replacements s) B out' -> out' = out.
Proof.
  exists (sequential (replacements s) B).
  rewrite (proj1 (apply_literal _ (tables_literal s) B)).
  assert (forallb (fun rl => nonempty (fst rl)) (replacements s) = true) as Hne
      by (destruct s; vm_compute; reflexivity).
  destruct (sequential_Chain _ Hne B) as [Hc Hu]. now repeat split.
Qed.

(** The matching is case-sensitive and every occurrence is rewritten, not
    the first only. *)
Example editor_global_case_sensitive :
  apply_replacements editor_replacements
    (py "className='timetable-grid' ClassName='timetable-grid' className='timetable-grid'")
  = Some (py "className='editor-timetable-grid' ClassName='timetable-grid' className='editor-timetable-grid'").
Proof. vm_compute. reflexivity. Qed.

(** C2, as the specification states it, fails: with the one rule ab -> a no
    pattern occurs in a replacement, and the text abb becomes ab on the
    first run and a on the second. *)
Lemma C2_counterexample :
  pattern_free_replacements junction_rules = true
  /\ apply_replacements junction_rules (str "abb") = Some (str "ab")
  /\ apply_replacements junction_rules (str "ab") = Some (str "a")
  /\ str "ab" <> str "a".
Proof. repeat split; try (vm_compute; reflexivity). discriminate. Qed.

(** C2, amended.  For literal rules whose patterns are non-empty and cannot
    share a character with, or span, any replacement of the list, a second
    run of the rules leaves the result of the first as it is. *)
Theorem C2_idempotent_without_overlap (R : list rule) (B : text) :
  literal_rules R = true -> no_overlap R = true ->
  exists out,
    apply_replacements R B = Some out /\ apply_replacements R out = Some out.
Proof.
  intros Hl Hn.
  destruct (apply_idempotent R B Hl Hn) as (out & H1 & _ & _ & H2).
  now exists out.
Qed.

Lemma C2_witness :
  literal_rules editor_replacements = true
  /\ no_overlap editor_replacements = true
  /\ exists out,
       apply_replacements editor_replacements (py "<td className='subject-code'>")
       = Some out
       /\ apply_replacements editor_replacements out = Some out.
Proof.
  split; [reflexivity|]. split; [reflexivity|].
  apply (C2_idempotent_without_overlap editor_replacements
           (py "<td className='subject-code'>")); reflexivity.
Defined.

(** C3.  The viewer's rule for classroom-badge has no closing quote, so an
    attribute whose class name only starts with classroom-badge is rewritten
    too: wherever className="classroom-badge-fixed" stands, it becomes
    className="viewer-classroom-badge-fixed", the text before and after it
    being rewritten as it would be on its own. *)
Theorem C3_unquoted_pattern_matches_prefix (pre post : text) :
  exists pre' post',
    apply_replacements viewer_replacements pre = Some pre'
    /\ apply_replacements viewer_replacements post = Some post'
    /\ apply_replacements viewer_replacements
         (pre ++ py "className='classroom-badge-fixed'" ++ post)
       = Some (pre' ++ py "className='viewer-classroom-badge-fixed'" ++ post').
Proof.
  apply (apply_block viewer_replacements _ _ 1%nat (tables_literal Viewer)).
  vm_compute. reflexivity.
Qed.

(** C4.  For the editor's and the viewer's rule list and every text, after
    one run no pattern of the list is left in the result, a second run makes
    no substitution and returns the result as it is. *)
Theorem C4_second_run_changes_nothing (s : script_id) (B : text) :
  exists out,
    apply_replacements (replacements s) B = Some out
    /\ (forall q, In q (map fst (replacements s)) -> occurs q out = false)
    /\ count_replacements (replacements s) out = Some O
    /\ apply_replacements (replacements s) out = Some out.
Proof. apply apply_idempotent; [apply tables_literal | apply tables_no_overlap]. Qed.

Lemma relay_first (s : text) :
  replace_from [97] [98] 0 s = map (fun c => if 97 =? c then 98 else c) s.
Proof.
  induction s as [|c s IH]; [reflexivity|].
  cbn [replace_from is_prefix length map].
  destruct (97 =? c); cbn [andb app]; now rewrite IH.
Qed.

Lemma relay_second (s : text) : replace_from [98] [98] 0 s = s.
Proof.
  induction s as [|c s IH]; [reflexivity|].
  cbn [replace_from is_prefix length].
  destruct (98 =? c) eqn:E; cbn [andb app]; rewrite IH; [|reflexivity].
  apply N.eqb_eq in E. now subst c.
Qed.

Lemma relay_simultaneous (s : text) :
  simultaneous_from relay_rules 0 s
  = map (fun c => if 97 =? c then 98 else c) s.
Proof.
  induction s as [|c s IH]; [reflexivity|].
  change relay_rules with [([97], [98]); ([98], [98])] in *.
  cbn [simultaneous_from first_match find fst is_prefix map].
  destruct (97 =? c) eqn:Ea; cbn [andb length app]; [now rewrite IH|].
  destruct (98 =? c) eqn:Eb; cbn [andb length app]; rewrite IH; [|reflexivity].
  apply N.eqb_eq in Eb. now subst c.
Qed.

(** C5, as the specification states it, fails: in the list a -> b, b -> b
    the first replacement contains the pattern of the second rule, and on
    every text the run gives what one pass with both rules gives. *)
Lemma C5_counterexample :
  feeds_later relay_rules = true
  /\ forall B,
       apply_replacements relay_rules B = Some (simultaneous relay_rules B).
Proof.
  split; [reflexivity|]. intros B.
  rewrite (proj1 (apply_literal relay_rules eq_refl B)). f_equal.
  unfold simultaneous. rewrite relay_simultaneous.
  change (sequential relay_rules B)
    with (replace_from [98] [98] 0 (replace_from [97] [98] 0 B)).
  now rewrite relay_second, relay_first.
Qed.

Lemma is_prefix_refl (p : text) : is_prefix p p = true.
Proof. induction p as [|x p IH]; simpl; [|rewrite N.eqb_refl]; auto. Qed.

Lemma simultaneous_cons_hit (rs : list rule) (c : char) (s p r : text) :
  first_match rs (c :: s) = Some (p, r) ->
  simultaneous_from rs 0 (c :: s)
  = r ++ match length p with
         | S m => simultaneous_from rs m s
         | O => c :: simultaneous_from rs 0 s
         end.
Proof. intros H. cbn [simultaneous_from]. now rewrite H. Qed.

(** C5, amended.  The run is the left fold of the single-rule
    substitutions over the list.  For a list of two literal rules with
    non-empty patterns, where the first replacement contains the second
    pattern and the second replacement differs from its pattern, the text
    equal to the first pattern shows the difference: the run rewrites what
    the first rule wrote, one pass with both rules does not. *)
Theorem C5_sequential_not_simultaneous
  (R : list rule) (B : text) (p1 r1 p2 r2 : text) :
  literal_rules R = true ->
  literal_rules [(p1, r1); (p2, r2)] = true ->
  nonempty p1 = true -> nonempty p2 = true ->
  occurs p2 r1 = true -> text_eqb r2 p2 = false ->
  apply_replacements R B
  = Some (fold_left (fun acc rl => replace_all (fst rl) (snd rl) acc) R B)
  /\ apply_replacements [(p1, r1); (p2, r2)] p1 = Some (replace_all p2 r2 r1)
  /\ simultaneous [(p1, r1); (p2, r2)] p1 = r1
  /\ replace_all p2 r2 r1 <> r1.
Proof.
  intros HR Hl Hp1 Hp2 Ho Hne.
  assert (replace_all p1 r1 p1 = r1) as Hself.
  { rewrite <- (app_nil_r p1) at 2. rewrite (replace_hit _ _ _ Hp1).
    unfold replace_all. cbn [replace_from].
    rewrite (nonempty_not_prefix_nil _ Hp1). apply app_nil_r. }
  split; [exact (proj1 (apply_literal _ HR B))|].
  split.
  { rewrite (proj1 (apply_literal _ Hl p1)). f_equal.
    unfold sequential. cbn [fold_left fst snd]. now rewrite Hself. }
  split.
  { unfold simultaneous. destruct p1 as [|c p1']; [discriminate|].
    rewrite (simultaneous_cons_hit _ c p1' (c :: p1') r1).
    - cbn [length].
      pose proof (simultaneous_skip [(c :: p1', r1); (p2, r2)] p1' []) as Hsk.
      rewrite app_nil_r in Hsk.
      transitivity (r1 ++ simultaneous_from [(c :: p1', r1); (p2, r2)] 0 []);
        [f_equal; exact Hsk|].
      cbn [simultaneous_from first_match find fst].
      rewrite (nonempty_not_prefix_nil _ Hp2). cbn [is_prefix].
      apply app_nil_r.
    - unfold first_match. cbn [find fst]. now rewrite is_prefix_refl. }
  apply replace_changes; [exact Hp2 | exact Ho|].
  intros ->. now rewrite text_eqb_refl in Hne.
Qed.

Lemma C5_witness :
  literal_rules viewer_replacements = true
  /\ literal_rules [(str "a", str "b"); (str "b", str "c")] = true
  /\ nonempty (str "a") = true /\ nonempty (str "b") = true
  /\ occurs (str "b") (str "b") = true
  /\ text_eqb (str "c") (str "b") = false
  /\ apply_replacements viewer_replacements (py "<p className='lab-cell'>")
     = Some (fold_left (fun acc rl => replace_all (fst rl) (snd rl) acc)
                       viewer_replacements (py "<p className='lab-cell'>"))
  /\ apply_replacements [(str "a", str "b"); (str "b", str "c")] (str "a")
     = Some (replace_all (str "b") (str "c") (str "b"))
  /\ simultaneous [(str "a", str "b"); (str "b", str "c")] (str "a") = str "b"
  /\ replace_all (str "b") (str "c") (str "b") <> str "b".
Proof.
  split; [reflexivity|]. split; [reflexivity|]. split; [reflexivity|].
  split; [reflexivity|]. split; [reflexivity|]. split; [reflexivity|].
  apply (C5_sequential_not_simultaneous viewer_replacements
           (py "<p className='lab-cell'>")
           (str "a") (str "b") (str "b") (str "c"));
    reflexivity.
Defined.

(** C6.  Wherever className="timetable-grid" stands the editor's rules put
    className="editor-timetable-grid"; wherever className="subject-code"
    stands the viewer's rules put className="viewer-subject-code" and the
    editor's rules className="editor-subject-code". *)
Theorem C6_scenarios (pre post : text) :
  (exists pre' post',
      apply_replacements editor_replacements pre = Some pre'
      /\ apply_replacements editor_replacements post = Some post'
      /\ apply_replacements editor_replacements
           (pre ++ py "className='timetable-grid'" ++ post)
         = Some (pre' ++ py "className='editor-timetable-grid'" ++ post'))
  /\ (exists pre' post',
      apply_replacements viewer_replacements pre = Some pre'
      /\ apply_replacements viewer_replacements post = Some post'
      /\ apply_replacements viewer_replacements
           (pre ++ py "className='subject-code'" ++ post)
         = Some (pre' ++ py "className='viewer-subject-code'" ++ post'))
  /\ (exists pre' post',
      apply_replacements editor_replacements pre = Some pre'
      /\ apply_replacements editor_replacements post = Some post'
      /\ apply_replacements editor_replacements
           (pre ++ py "className='subject-code'" ++ post)
         = Some (pre' ++ py "className='editor-subject-code'" ++ post')).
Proof.
  repeat split.
  - apply (apply_block editor_replacements _ _ 1%nat (tables_literal Editor)).
    vm_compute. reflexivity.
  - apply (apply_block viewer_replacements _ _ 1%nat (tables_literal Viewer)).
    vm_compute. reflexivity.
  - apply (apply_block editor_replacements _ _ 1%nat (tables_literal Editor)).
    vm_compute. reflexivity.
Qed.

Lemma store_same (w : world) (p : path) (f : file) :
  fs w p = Some f -> forall q, store (fs w) p f q = fs w q.
Proof.
  intros E q. unfold store. destruct (String.eqb q p) eqn:Eq; [|reflexivity].
  apply String.eqb_eq in Eq. now subst q.
Qed.

(** C7, as the specification states it, fails: the editor's file holding
    a CR LF b on a POSIX system contains no pattern, is read as a LF b and is
    written back as the three bytes a LF b. *)
Lemma C7_counterexample :
  read_text editor_path crlf_world = (crlf_world, Return [97; 10; 98])
  /\ forallb (fun rl => negb (occurs (fst rl) [97; 10; 98])) editor_replacements
     = true
  /\ snd (update_editor_classes crlf_world) = Return tt
  /\ option_map data (fs crlf_world editor_path) = Some [97; 13; 10; 98]
  /\ option_map data (fs (fst (update_editor_classes crlf_world)) editor_path)
     = Some [97; 10; 98].
Proof. repeat split; vm_compute; reflexivity. Qed.

(** C7, amended.  When no pattern of the script occurs in the text read
    from the file, the text handed to the write is the text read; and when
    the line endings of the file are the platform's own, the run ends
    normally and leaves every file as it was. *)
Theorem C7_no_match_keeps_content
  (s : script_id) (w : world) (f : file) (t : text) :
  fs w (target s) = Some f ->
  readable f = true -> writable f = true ->
  Utf8.decode (data f) = Some t ->
  forallb (fun rl => negb (occurs (fst rl) (read_newlines t))) (replacements s)
  = true ->
  read_text (target s) w = (w, Return (read_newlines t))
  /\ run_replacements (replacements s) (read_newlines t) w
     = (w, Return (read_newlines t))
  /\ (native_newlines (os w) t = true ->
      snd (main s w) = Return tt
      /\ forall q, fs (fst (main s w)) q = fs w q).
Proof.
  intros E R W D Hno.
  assert (sequential (replacements s) (read_newlines t) = read_newlines t)
    as Hfix.
  { apply sequential_fixed. intros q Hq.
    apply in_map_iff in Hq as (rl & <- & Hin).
    rewrite forallb_forall in Hno. now apply negb_true_iff, Hno. }
  split; [unfold read_text; now rewrite E, R, D|].
  split.
  { unfold run_replacements.
    now rewrite (proj1 (apply_literal _ (tables_literal s) _)), Hfix. }
  intros Hnl. rewrite main_script.
  destruct (script_writes (target s) (replacements s) (message s)
              (tables_literal s) (tables_scalar s) w f t E R D W)
    as (bs & Hbs & ->).
  rewrite Hfix, (native_roundtrip _ _ Hnl) in Hbs.
  rewrite (decode_encode (length (data f)) _ _ (le_n _) D) in Hbs.
  injection Hbs as <-. cbn [fst snd fs]. split; [reflexivity|].
  apply store_same. rewrite E. destruct f as [rd wr bs]. cbn in *.
  now subst rd wr.
Qed.

Lemma C7_witness :
  fs sample_world (target Editor) = Some (mkFile true true (py "<td class='x'>"))
  /\ Utf8.decode (py "<td class='x'>") = Some (py "<td class='x'>")
  /\ forallb (fun rl => negb (occurs (fst rl) (read_newlines (py "<td class='x'>"))))
             (replacements Editor) = true
  /\ native_newlines (os sample_world) (py "<td class='x'>") = true
  /\ read_text (target Editor) sample_world
     = (sample_world, Return (read_newlines (py "<td class='x'>")))
  /\ run_replacements (replacements Editor) (read_newlines (py "<td class='x'>"))
       sample_world
     = (sample_world, Return (read_newlines (py "<td class='x'>")))
  /\ snd (main Editor sample_world) = Return tt
  /\ forall q, fs (fst (main Editor sample_world)) q = fs sample_world q.
Proof.
  split; [reflexivity|]. split; [reflexivity|]. split; [reflexivity|].
  split; [reflexivity|].
  destruct (C7_no_match_keeps_content Editor sample_world
              (mkFile true true (py "<td class='x'>")) (py "<td class='x'>")
              eq_refl eq_refl eq_refl eq_refl eq_refl) as (Hread & Hrun & Hfile).
  split; [exact Hread|]. split; [exact Hrun|].
  apply Hfile. reflexivity.
Defined.

(** On a Windows system it is the file with bare LF that changes: a LF b is
    written back as a CR LF b. *)
Example lf_file_on_windows :
  option_map data
    (fs (fst (update_editor_classes
                (one_file Windows editor_path (mkFile true true [97; 10; 98]))))
        editor_path)
  = Some [97; 13; 10; 98].
Proof. vm_compute. reflexivity. Qed.


(** The other way round: an unreadable file whose bytes are not valid UTF-8
    ends the run with the file-access error, not an encoding error. *)
Example unreadable_invalid_file :
  snd (update_editor_classes
         (one_file Posix editor_path (mkFile false true [255])))
  = Raise PermissionError.
Proof. reflexivity. Qed.


(** C9.  No pattern of either table holds a special character of the
    pattern syntax, and on every text the loop of [re.sub] calls gives what
    the plain substitution of the same pairs in the same order gives. *)
Theorem C9_regex_is_plain_substitution (s : script_id) :
  forallb (fun rl => forallb (fun c => negb (Re.special c)) (fst rl))
          (replacements s) = true
  /\ forall B,
       apply_replacements (replacements s) B
       = Some (fold_left (fun acc rl => replace_all (fst rl) (snd rl) acc)
                         (replacements s) B).
Proof.
  split; [destruct s; vm_compute; reflexivity|].
  intros B. exact (proj1 (apply_literal _ (tables_literal s) B)).
Qed.


(** * Further properties of the scripts *)

(** ** What is written can be read back *)

Ltac to_bool :=
  repeat match goal with
    | |- (_ && _) = true => apply andb_true_intro; split
    | |- (_ <=? _) = true => apply N.leb_le
    | |- (_ <? _) = true => apply N.ltb_lt
    | |- (_ <? _) = false => apply N.ltb_ge
    | |- Utf8.cont _ = true => unfold Utf8.cont
    end.

Lemma decode_cons_1 (b0 : N) (rest : list Utf8.byte) :
  b0 < 128 ->
  Utf8.decode (b0 :: rest) = option_map (cons b0) (Utf8.decode rest).
Proof.
  intros H. cbn [Utf8.decode].
  now replace (b0 <? 128) with true by (symmetry; to_bool; lia).
Qed.

Lemma decode_cons_2 (b0 b1 : N) (rest : list Utf8.byte) :
  194 <= b0 <= 223 -> 128 <= b1 <= 191 ->
  Utf8.decode (b0 :: b1 :: rest)
  = option_map (cons ((b0 - 192) * 64 + (b1 - 128))) (Utf8.decode rest).
Proof.
  intros H0 H1. cbn [Utf8.decode].
  replace (b0 <? 128) with false by (symmetry; to_bool; lia).
  replace ((194 <=? b0) && (b0 <=? 223)) with true
    by (symmetry; to_bool; lia).
  now replace (Utf8.cont b1) with true by (symmetry; to_bool; lia).
Qed.

Lemma decode_cons_3 (b0 b1 b2 : N) (rest : list Utf8.byte) :
  224 <= b0 <= 239 -> 128 <= b1 <= 191 -> 128 <= b2 <= 191 ->
  (b0 = 224 -> 160 <= b1) -> (b0 = 237 -> b1 <= 159) ->
  Utf8.decode (b0 :: b1 :: b2 :: rest)
  = option_map (cons ((b0 - 224) * 4096 + (b1 - 128) * 64 + (b2 - 128)))
               (Utf8.decode rest).
Proof.
  intros H0 H1 H2 Hlo Hhi. cbn [Utf8.decode].
  replace (b0 <? 128) with false by (symmetry; to_bool; lia).
  replace ((194 <=? b0) && (b0 <=? 223)) with false
    by (symmetry; apply andb_false_iff; right; apply N.leb_gt; lia).
  replace ((224 <=? b0) && (b0 <=? 239)) with true
    by (symmetry; to_bool; lia).
  replace (Utf8.cont b1) with true by (symmetry; to_bool; lia).
  replace (Utf8.cont b2) with true by (symmetry; to_bool; lia).
  replace (if b0 =? 224 then 160 <=? b1 else true) with true
    by (destruct (b0 =? 224) eqn:E; [|reflexivity];
        symmetry; apply N.leb_le, Hlo; now apply N.eqb_eq).
  now replace (if b0 =? 237 then b1 <=? 159 else true) with true
    by (destruct (b0 =? 237) eqn:E; [|reflexivity];
        symmetry; apply N.leb_le, Hhi; now apply N.eqb_eq).
Qed.

Lemma decode_cons_4 (b0 b1 b2 b3 : N) (rest : list Utf8.byte) :
  240 <= b0 <= 244 -> 128 <= b1 <= 191 -> 128 <= b2 <= 191 ->
  128 <= b3 <= 191 ->
  (b0 = 240 -> 144 <= b1) -> (b0 = 244 -> b1 <= 143) ->
  Utf8.decode (b0 :: b1 :: b2 :: b3 :: rest)
  = option_map (cons ((b0 - 240) * 262144 + (b1 - 128) * 4096
                      + (b2 - 128) * 64 + (b3 - 128)))
               (Utf8.decode rest).
Proof.
  intros H0 H1 H2 H3 Hlo Hhi. cbn [Utf8.decode].
  replace (b0 <? 128) with false by (symmetry; to_bool; lia).
  replace ((194 <=? b0) && (b0 <=? 223)) with false
    by (symmetry; apply andb_false_iff; right; apply N.leb_gt; lia).
  replace ((224 <=? b0) && (b0 <=? 239)) with false
    by (symmetry; apply andb_false_iff; right; apply N.leb_gt; lia).
  replace ((240 <=? b0) && (b0 <=? 244)) with true
    by (symmetry; to_bool; lia).
  replace (Utf8.cont b1) with true by (symmetry; to_bool; lia).
  replace (Utf8.cont b2) with true by (symmetry; to_bool; lia).
  replace (Utf8.cont b3) with true by (symmetry; to_bool; lia).
  replace (if b0 =? 240 then 144 <=? b1 else true) with true
    by (destruct (b0 =? 240) eqn:E; [|reflexivity];
        symmetry; apply N.leb_le, Hlo; now apply N.eqb_eq).
  now replace (if b0 =? 244 then b1 <=? 143 else true) with true
    by (destruct (b0 =? 244) eqn:E; [|reflexivity];
        symmetry; apply N.leb_le, Hhi; now apply N.eqb_eq).
Qed.

(** The quotients and remainders of a code point, as the encoder takes
    them. *)
Lemma split_64 (c : N) :
  c = 64 * (c / 64) + c mod 64 /\ c mod 64 < 64.
Proof. split; [apply N.div_mod | apply N.mod_lt]; discriminate. Qed.

Lemma div_4096 (c : N) : c / 4096 = c / 64 / 64.
Proof. now rewrite N.Div0.div_div. Qed.

Lemma div_262144 (c : N) : c / 262144 = c / 64 / 64 / 64.
Proof. now rewrite !N.Div0.div_div. Qed.

Lemma some_eq {A} (a b : A) : Some a = Some b -> a = b.
Proof. now intros [= ->]. Qed.

Lemma encode_char_decode (c : char) (bs rest : list Utf8.byte) :
  Utf8.encode_char c = Some bs ->
  Utf8.decode (bs ++ rest) = option_map (cons c) (Utf8.decode rest).
Proof.
  unfold Utf8.encode_char.
  destruct (split_64 c) as [Hc Hr].
  destruct (split_64 (c / 64)) as [Hc1 Hr1].
  destruct (split_64 (c / 64 / 64)) as [Hc2 Hr2].
  rewrite div_4096, div_262144.
  remember (c mod 64) as r0 eqn:Er0. remember (c / 64) as q1 eqn:Eq1.
  remember (q1 mod 64) as r1 eqn:Er1. remember (q1 / 64) as q2 eqn:Eq2.
  remember (q2 mod 64) as r2 eqn:Er2. remember (q2 / 64) as q3 eqn:Eq3.
  clear Er0 Eq1 Er1 Eq2 Er2 Eq3.
  destruct (c <? 128) eqn:E1; bools.
  { intros H. apply some_eq in H. subst bs. now apply decode_cons_1. }
  destruct (c <? 2048) eqn:E2; bools.
  { intros H. apply some_eq in H. subst bs. cbn [app].
    rewrite decode_cons_2 by lia. do 2 f_equal. lia. }
  destruct (c <? 65536) eqn:E3; bools.
  { destruct ((55296 <=? c) && (c <=? 57343)) eqn:E4; [discriminate|].
    apply andb_false_iff in E4.
    intros H. apply some_eq in H. subst bs. cbn [app].
    rewrite decode_cons_3; [do 2 f_equal; lia | lia | lia | lia | |].
    - intros Hb. destruct E4; bools; lia.
    - intros Hb. destruct E4; bools; lia. }
  destruct (c <? 1114112) eqn:E4; [|discriminate]. bools.
  intros H. apply some_eq in H. subst bs. cbn [app].
  rewrite decode_cons_4; [do 2 f_equal; lia | lia | lia | lia | lia | |];
    intros Hb; lia.
Qed.

Lemma encode_decode (t : text) :
  forall bs, Utf8.encode t = Some bs -> Utf8.decode bs = Some t.
Proof.
  induction t as [|c t IH]; intros bs H.
  - now injection H as <-.
  - cbn [Utf8.encode] in H.
    destruct (Utf8.encode_char c) as [b|] eqn:Ec; [|discriminate].
    destruct (Utf8.encode t) as [rest|] eqn:Et; [|discriminate].
    injection H as <-.
    now rewrite (encode_char_decode _ _ rest Ec), (IH rest eq_refl).
Qed.

(** Text read from a file holds no carriage return, and neither does a
    replacement of the tables. *)
Lemma read_newlines_no_cr_out :
  forall n t, (length t <= n)%nat ->
    forallb (fun c => negb (c =? 13)) (read_newlines t) = true.
Proof.
  induction n as [|n IH]; intros t Hn.
  - destruct t; [reflexivity | simpl in Hn; lia].
  - destruct t as [|c t]; [reflexivity|].
    cbn [read_newlines]. simpl in Hn.
    destruct (c =? 13) eqn:Ec.
    + cbn [forallb]. change (negb (10 =? 13)) with true. cbn [andb].
      destruct t as [|d t]; [reflexivity|]. simpl in Hn.
      destruct (d =? 10); apply IH; simpl; lia.
    + cbn [forallb]. rewrite Ec. apply IH. lia.
Qed.

Lemma tables_no_cr (s : script_id) :
  forallb (fun rl => forallb (fun c => negb (c =? 13)) (snd rl))
          (replacements s) = true.
Proof. destruct s; vm_compute; reflexivity. Qed.

Lemma write_then_read (o : platform) (c : text) :
  forallb (fun x => negb (x =? 13)) c = true ->
  read_newlines (write_newlines o c) = c.
Proof.
  unfold write_newlines. induction c as [|x c IH]; intros H; [reflexivity|].
  cbn [forallb] in H. apply andb_prop in H as [Hx Hc].
  apply negb_true_iff in Hx. cbn [flat_map].
  destruct (x =? 10) eqn:E10.
  - apply N.eqb_eq in E10. subst x.
    destruct o; cbn [linesep app read_newlines N.eqb Pos.eqb];
      f_equal; exact (IH Hc).
  - cbn [app read_newlines]. rewrite Hx. f_equal. exact (IH Hc).
Qed.

Lemma write_gives_native (o : platform) (c : text) :
  forallb (fun x => negb (x =? 13)) c = true ->
  native_newlines o (write_newlines o c) = true.
Proof.
  intros H. destruct o; cbn [native_newlines].
  - now rewrite write_newlines_posix.
  - unfold write_newlines. induction c as [|x c IH]; [reflexivity|].
    cbn [forallb] in H. apply andb_prop in H as [Hx Hc].
    apply negb_true_iff in Hx. cbn [flat_map].
    destruct (x =? 10) eqn:E10.
    + cbn [linesep app crlf_only N.eqb Pos.eqb andb]. exact (IH Hc).
    + cbn [app crlf_only]. rewrite Hx, E10. exact (IH Hc).
Qed.

(** ** The ways a run can end *)

Lemma main_cases (s : script_id) (w : world) :
  (exists e, main s w = (w, Raise e))
  \/ (exists f t bs,
         fs w (target s) = Some f
         /\ readable f = true /\ writable f = true
         /\ Utf8.decode (data f) = Some t
         /\ apply_replacements (replacements s) (read_newlines t)
            = Some (sequential (replacements s) (read_newlines t))
         /\ Utf8.encode
              (write_newlines (os w)
                 (sequential (replacements s) (read_newlines t)))
            = Some bs
         /\ main s w
            = (mkWorld (os w) (store (fs w) (target s) (mkFile true true bs))
                       (stdout w ++ [message s]),
               Return tt)).
Proof.
  rewrite main_script.
  pose proof (tables_literal s) as Hl. pose proof (tables_scalar s) as Hs.
  destruct (fs w (target s)) as [f|] eqn:E;
    [|left; eexists; now apply script_missing].
  destruct (readable f) eqn:R;
    [|left; eexists; now apply (script_unreadable _ _ _ w f)].
  destruct (Utf8.decode (data f)) as [t|] eqn:D;
    [|left; eexists; now apply (script_undecodable _ _ _ w f)].
  destruct (writable f) eqn:W;
    [|left; eexists; now apply (script_unwritable _ _ _ Hl w f t)].
  right. destruct (script_writes _ _ (message s) Hl Hs w f t E R D W)
    as (bs & Hbs & Hrun).
  exists f, t, bs. repeat split; try assumption.
  exact (proj1 (apply_literal _ Hl _)).
Qed.

Lemma rewritten_no_cr (s : script_id) (t : text) :
  forallb (fun c => negb (c =? 13))
          (sequential (replacements s) (read_newlines t)) = true.
Proof.
  apply sequential_forallb; [apply tables_no_cr|].
  now apply (read_newlines_no_cr_out (length t)).
Qed.




(** X3.  After a run that ends normally, reading the target again gives
    exactly the rewritten text: the write and the read undo each other. *)
Theorem run_then_read (s : script_id) (w : world) (content : text) :
  read_text (target s) w = (w, Return content) ->
  snd (main s w) = Return tt ->
  exists out,
    apply_replacements (replacements s) content = Some out
    /\ read_text (target s) (fst (main s w)) = (fst (main s w), Return out).
Proof.
  intros Hread Hok.
  destruct (main_cases s w)
    as [[e He] | (f & t & bs & E & R & W & D & Ha & Hb & Hm)].
  - rewrite He in Hok. discriminate.
  - unfold read_text in Hread. rewrite E, R, D in Hread.
    injection Hread as <-.
    exists (sequential (replacements s) (read_newlines t)).
    split; [exact Ha|]. rewrite Hm. cbn [fst].
    unfold read_text, store. cbn [fs]. rewrite String.eqb_refl. cbn [readable data].
    rewrite (encode_decode _ _ Hb).
    now rewrite (write_then_read _ _ (rewritten_no_cr s t)).
Qed.

Lemma run_then_read_witness :
  read_text (target Editor) sample_world
  = (sample_world, Return (py "<td class='x'>"))
  /\ snd (main Editor sample_world) = Return tt
  /\ exists out,
       apply_replacements (replacements Editor) (py "<td class='x'>") = Some out
       /\ read_text (target Editor) (fst (main Editor sample_world))
          = (fst (main Editor sample_world), Return out).
Proof.
  split; [reflexivity|]. split; [reflexivity|].
  apply (run_then_read Editor sample_world (py "<td class='x'>"));
    reflexivity.
Defined.

Lemma store_twice (f0 : filesystem) (p : path) (f g : file) :
  forall q, store (store f0 p f) p g q = store f0 p g q.
Proof. intros q. unfold store. now destruct (String.eqb q p). Qed.

(** The state a normal run leaves is one on which the next run rewrites
    nothing. *)
Lemma main_again (s : script_id) (w : world) (t : text) (bs : list Utf8.byte) :
  Utf8.encode
    (write_newlines (os w) (sequential (replacements s) (read_newlines t)))
  = Some bs ->
  main s (mkWorld (os w) (store (fs w) (target s) (mkFile true true bs))
                  (stdout w ++ [message s]))
  = (mkWorld (os w)
       (store (store (fs w) (target s) (mkFile true true bs)) (target s)
              (mkFile true true bs))
       ((stdout w ++ [message s]) ++ [message s]),
     Return tt).
Proof.
  intros Hb.
  set (w' := mkWorld (os w) (store (fs w) (target s) (mkFile true true bs))
                     (stdout w ++ [message s])).
  assert (fs w' (target s) = Some (mkFile true true bs)) as E'
      by (unfold w', store; cbn [fs]; now rewrite String.eqb_refl).
  pose proof (encode_decode _ _ Hb) as D'.
  rewrite main_script.
  destruct (script_writes _ _ (message s) (tables_literal s) (tables_scalar s)
              w' _ _ E' eq_refl D' eq_refl) as (bs' & Hb' & ->).
  rewrite (write_then_read _ _ (rewritten_no_cr s t)) in Hb'.
  rewrite (proj1 (sequential_idempotent _ (read_newlines t)
                    (tables_no_overlap s))) in Hb'.
  unfold w' in Hb'. cbn [os] in Hb'. rewrite Hb in Hb'.
  apply some_eq in Hb'. now subst bs'.
Qed.

(** X4.  Running a script a second time after a run that ended normally
    ends normally again, leaves every file exactly as the first run left it
    and prints the acknowledgment a second time. *)
Theorem second_run_keeps_files (s : script_id) (w : world) :
  snd (main s w) = Return tt ->
  snd (main s (fst (main s w))) = Return tt
  /\ (forall q, fs (fst (main s (fst (main s w)))) q = fs (fst (main s w)) q)
  /\ stdout (fst (main s (fst (main s w))))
     = stdout w ++ [message s; message s].
Proof.
  intros Hok.
  destruct (main_cases s w)
    as [[e He] | (f & t & bs & E & R & W & D & Ha & Hb & Hm)].
  - rewrite He in Hok. discriminate.
  - rewrite Hm. cbn [fst]. rewrite (main_again s w t bs Hb). cbn [fst snd fs stdout].
    repeat split.
    + apply store_twice.
    + now rewrite <- app_assoc.
Qed.

Lemma second_run_witness :
  snd (main Editor sample_world) = Return tt
  /\ snd (main Editor (fst (main Editor sample_world))) = Return tt
  /\ (forall q, fs (fst (main Editor (fst (main Editor sample_world)))) q
                = fs (fst (main Editor sample_world)) q)
  /\ stdout (fst (main Editor (fst (main Editor sample_world))))
     = stdout sample_world ++ [message Editor; message Editor].
Proof.
  split; [reflexivity|].
  apply (second_run_keeps_files Editor sample_world). reflexivity.
Defined.

(** X5.  After a run that ends normally the target holds valid UTF-8 whose
    line endings are the platform's own: bare LF on POSIX, CR LF on Windows,
    whatever the endings were before. *)
Theorem run_leaves_native_newlines (s : script_id) (w : world) :
  snd (main s w) = Return tt ->
  exists f' t',
    fs (fst (main s w)) (target s) = Some f'
    /\ Utf8.decode (data f') = Some t'
    /\ native_newlines (os w) t' = true.
Proof.
  intros Hok.
  destruct (main_cases s w)
    as [[e He] | (f & t & bs & E & R & W & D & Ha & Hb & Hm)].
  - rewrite He in Hok. discriminate.
  - rewrite Hm. cbn [fst fs].
    exists (mkFile true true bs),
           (write_newlines (os w) (sequential (replacements s) (read_newlines t))).
    repeat split.
    + unfold store. now rewrite String.eqb_refl.
    + exact (encode_decode _ _ Hb).
    + apply write_gives_native, rewritten_no_cr.
Qed.

Lemma native_newlines_witness :
  snd (main Editor crlf_world) = Return tt
  /\ exists f' t',
       fs (fst (main Editor crlf_world)) (target Editor) = Some f'
       /\ Utf8.decode (data f') = Some t'
       /\ native_newlines (os crlf_world) t' = true.
Proof.
  split; [reflexivity|].
  apply (run_leaves_native_newlines Editor crlf_world). reflexivity.
Defined.

Lemma Inserted_filter (P : char -> bool) (k ins : text) (n : nat) (s out : text) :
  forallb (fun c => negb (P c)) ins = true ->
  Inserted k ins n s out -> filter P out = filter P s.
Proof.
  intros Hins H. induction H as [s | g n s out H IH]; [reflexivity|].
  rewrite !filter_app, IH. f_equal. f_equal.
  assert (filter P ins = []) as ->; [|reflexivity].
  clear -Hins. induction ins as [|c ins IHi]; [reflexivity|].
  cbn [forallb] in Hins. apply andb_prop in Hins as [Hc Hi].
  apply negb_true_iff in Hc. cbn [filter]. rewrite Hc. now apply IHi.
Qed.

(** X6.  The rules only add characters of the prefix: the characters of any
    kind that the prefix does not contain (line feeds, non-ASCII characters,
    digits, ...) are the same, in the same order, before and after. *)
Theorem other_characters_kept (s : script_id) (P : char -> bool) (B : text) :
  forallb (fun c => negb (P c)) (added s) = true ->
  exists out,
    apply_replacements (replacements s) B = Some out
    /\ filter P out = filter P B.
Proof.
  intros HP. exists (sequential (replacements s) B).
  split; [exact (proj1 (apply_literal _ (tables_literal s) B))|].
  apply (Inserted_filter P attribute (added s)
           (sequential_count (replacements s) B)); [exact HP|].
  now apply (prefixing_inserted _ _ _ (tables_prefixing s) (length B)).
Qed.

Lemma other_characters_witness :
  forallb (fun c => negb (128 <=? c)) (added Viewer) = true
  /\ exists out,
       apply_replacements (replacements Viewer)
         (233 :: py "<i className='lab-cell'>" ++ [9989]) = Some out
       /\ filter (fun c => 128 <=? c) out
          = filter (fun c => 128 <=? c)
                   (233 :: py "<i className='lab-cell'>" ++ [9989]).
Proof.
  split; [reflexivity|].
  apply (other_characters_kept Viewer (fun c => 128 <=? c)). reflexivity.
Defined.

(** ** The two scripts side by side *)

Lemma script_local (p : path) (rs : list rule) (msg : text) (w1 w2 : world) :
  os w1 = os w2 -> fs w1 p = fs w2 p ->
  fs (fst (script p rs msg w1)) p = fs (fst (script p rs msg w2)) p.
Proof.
  destruct w1 as [o1 f1 s1], w2 as [o2 f2 s2]. cbn [os fs].
  intros <- Hf.
  unfold script, bind, read_text, run_replacements, write_text, print, ret, raise.
  cbn [os fs stdout]. rewrite <- Hf.
  destruct (f1 p) as [f|] eqn:E1; [|cbn [fst fs]; congruence].
  destruct (readable f); [|cbn [fst fs]; congruence].
  destruct (Utf8.decode (data f)); [|cbn [fst fs]; congruence].
  destruct (apply_replacements rs _); [|cbn [fst fs]; congruence].
  cbn [os fs stdout]. rewrite <- Hf, E1.
  destruct (writable f); [|cbn [fst fs]; congruence].
  destruct (Utf8.encode _); cbn [fst fs]; unfold store;
    now rewrite String.eqb_refl.
Qed.

Lemma main_frame (s : script_id) (w : world) (q : path) :
  q <> target s -> fs (fst (main s w)) q = fs w q.
Proof.
  intros Hq.
  destruct (main_cases s w)
    as [[e He] | (f & t & bs & _ & _ & _ & _ & _ & _ & Hm)]; rewrite ?He, ?Hm;
    [reflexivity|].
  cbn [fst fs]. unfold store.
  destruct (String.eqb q (target s)) eqn:Eq; [|reflexivity].
  now apply String.eqb_eq in Eq.
Qed.

Lemma main_os (s : script_id) (w : world) : os (fst (main s w)) = os w.
Proof.
  destruct (main_cases s w)
    as [[e He] | (f & t & bs & _ & _ & _ & _ & _ & _ & Hm)]; now rewrite ?He, ?Hm.
Qed.

Lemma targets_differ : target Editor <> target Viewer.
Proof. intros H. apply String.eqb_eq in H. vm_compute in H. discriminate. Qed.

(** X7.  The two scripts do not interfere: run one after the other, in
    either order, they leave the same files. *)
Theorem scripts_commute (w : world) (q : path) :
  fs (fst (main Viewer (fst (main Editor w)))) q
  = fs (fst (main Editor (fst (main Viewer w)))) q.
Proof.
  pose proof targets_differ as Hd.
  destruct (String.eqb q (target Editor)) eqn:Ee.
  - apply String.eqb_eq in Ee. subst q.
    rewrite main_frame by exact Hd.
    rewrite !main_script. apply script_local.
    + now rewrite <- main_script, main_os.
    + rewrite <- main_script. symmetry. now apply main_frame.
  - apply String.eqb_neq in Ee.
    destruct (String.eqb q (target Viewer)) eqn:Ev.
    + apply String.eqb_eq in Ev. subst q.
      rewrite (main_frame Editor (fst (main Viewer w))) by exact Ee.
      rewrite !main_script. apply script_local.
      * now rewrite <- main_script, main_os.
      * rewrite <- main_script. now apply main_frame.
    + apply String.eqb_neq in Ev. now rewrite !main_frame.
Qed.

(** ** One pass over the text does the same *)







